(** * table2json: the table-to-record conversion of the Excel add-in

    A shallow embedding of the command file of the add-in
    (the second file of [src/taskpane/taskpane.ts]): [isValidAttr],
    the validity flag computed in [fetchAllTables], [buildObject],
    the metadata and JSON columns assembled by [updateSheet], and the line
    formatter that [makeJsonSheet] hands to [updateSheet].

    Conventions of the embedding.
    - JavaScript strings are [string]s; the code inspects them only through
      the ASCII characters [.], [a-z], [A-Z], [0-9] and [_].
    - A cell is a scalar: a number, a string, a boolean or null.  Numeric
      cells are integers here; the code only tests a number for truthiness
      and passes it on.
    - An object literal [{}] is its list of own properties in insertion
      order.  Every mapping of a record is reachable by exactly one path
      from the record's root (cells are scalars and every mapping is created
      by a fresh [{}]), so a reference to a mapping is that path.
    - Property reads go through the prototype chain.  The names that
      [Object.prototype] and the wrappers of primitives supply are tabulated;
      a walk that follows one of them enters a built-in object, and the
      embedding stops there with the outcome [Escaped].
    - The file has no [use strict] directive and no import or export, so it is
      sloppy-mode script code; what a build could change by emitting the
      directive is kept as the [mode] parameter of the builder. *)

From Stdlib Require Import List Bool Arith ZArith Lia.
From Stdlib Require Import Strings.Ascii Strings.String Numbers.DecimalString.
Import ListNotations.

Local Open Scope string_scope.
Local Open Scope list_scope.
Set Warnings "-register-all".

(** ** Characters and strings *)

Definition dot : ascii := "."%char.

Definition inRange (lo hi c : ascii) : bool :=
  (nat_of_ascii lo <=? nat_of_ascii c)%nat && (nat_of_ascii c <=? nat_of_ascii hi)%nat.

(** The character class [[a-zA-Z0-9_]]. *)
Definition wordChar (c : ascii) : bool :=
  inRange "a" "z" c || inRange "A" "Z" c || inRange "0" "9" c || Ascii.eqb c "_".

Fixpoint allChars (p : ascii -> bool) (s : string) : bool :=
  match s with
  | EmptyString => true
  | String c rest => p c && allChars p rest
  end.

(** [String.prototype.split] with a one-character separator: the result is
    never empty, and the empty string splits into one empty piece. *)
Fixpoint split (sep : ascii) (s : string) : list string :=
  match s with
  | EmptyString => [EmptyString]
  | String c rest =>
      if Ascii.eqb c sep then EmptyString :: split sep rest
      else match split sep rest with
           | seg :: segs => String c seg :: segs
           | [] => [String c EmptyString]
           end
  end.

Definition dotFree (s : string) : bool :=
  allChars (fun c => negb (Ascii.eqb c dot)) s.

(** [Array.prototype.join]. *)
Fixpoint join (sep : string) (parts : list string) : string :=
  match parts with
  | [] => EmptyString
  | [p] => p
  | p :: rest => p ++ sep ++ join sep rest
  end.

(** ** Regular expressions and [RegExp.prototype.test] *)

Module Regex.

Inductive regex : Type :=
| Void
| Eps
| Class (p : ascii -> bool)
| Seq (r1 r2 : regex)
| Alt (r1 r2 : regex)
| Star (r : regex).

(** [r+] *)
Definition Plus (r : regex) : regex := Seq r (Star r).

(** The language of a regular expression: what it means for a whole string
    to match the pattern anchored by [^] and [$]. *)
Inductive Matches : regex -> string -> Prop :=
| MEps : Matches Eps EmptyString
| MClass p c : p c = true -> Matches (Class p) (String c EmptyString)
| MSeq r1 r2 s1 s2 : Matches r1 s1 -> Matches r2 s2 -> Matches (Seq r1 r2) (s1 ++ s2)
| MAltL r1 r2 s : Matches r1 s -> Matches (Alt r1 r2) s
| MAltR r1 r2 s : Matches r2 s -> Matches (Alt r1 r2) s
| MStar0 r : Matches (Star r) EmptyString
| MStarS r s1 s2 : Matches r s1 -> Matches (Star r) s2 -> Matches (Star r) (s1 ++ s2).

Fixpoint nullable (r : regex) : bool :=
  match r with
  | Void => false
  | Eps => true
  | Class _ => false
  | Seq r1 r2 => nullable r1 && nullable r2
  | Alt r1 r2 => nullable r1 || nullable r2
  | Star _ => true
  end.

Fixpoint deriv (c : ascii) (r : regex) : regex :=
  match r with
  | Void => Void
  | Eps => Void
  | Class p => if p c then Eps else Void
  | Seq r1 r2 =>
      if nullable r1 then Alt (Seq (deriv c r1) r2) (deriv c r2)
      else Seq (deriv c r1) r2
  | Alt r1 r2 => Alt (deriv c r1) (deriv c r2)
  | Star r1 => Seq (deriv c r1) (Star r1)
  end.

(** The matcher: consume the input one character at a time. *)
Fixpoint test (r : regex) (s : string) : bool :=
  match s with
  | EmptyString => nullable r
  | String c rest => test (deriv c r) rest
  end.

End Regex.

Import Regex.

(** ** [isValidAttr] (source lines 101-103) *)

(** The pattern [/^[a-zA-Z0-9_]+(\.[a-zA-Z0-9_]+)*$/]. *)
Definition attrPattern : regex :=
  Seq (Plus (Class wordChar))
      (Star (Seq (Class (Ascii.eqb dot)) (Plus (Class wordChar)))).

Definition isValidAttr (attrString : string) : bool :=
  test attrPattern attrString.

(** The validator as the specification words it: one or more segments, each a
    non-empty run of word characters, joined by single dots. *)
Definition isSegment (seg : string) : bool :=
  negb (String.eqb seg EmptyString) && allChars wordChar seg.

Definition spec_isValidKeyPath (s : string) : Prop :=
  exists segs : list string,
    segs <> [] /\ Forall (fun seg => isSegment seg = true) segs /\ s = join "." segs.

(** The segments after the first, each with the dot before it. *)
Fixpoint dotted (segs : list string) : string :=
  match segs with
  | [] => EmptyString
  | seg :: rest => "." ++ seg ++ dotted rest
  end.

(** ** The validity flag of a table (source lines 76-77) *)

(** JavaScript truthiness of a string. *)
Definition truthyString (s : string) : bool := negb (String.eqb s EmptyString).

(** [a.text[0].every(attr => !attr || isValidAttr(attr)) &&
     a.text[0].some(attr => isValidAttr(attr))] *)
Definition validAttrRow (attrRow : list string) : bool :=
  forallb (fun attr => negb (truthyString attr) || isValidAttr attr) attrRow
  && existsb (fun attr => isValidAttr attr) attrRow.

(** The flag as the specification words it. *)
Definition spec_isHeaderRowValid (headers : list string) : Prop :=
  (forall h, In h headers -> h <> EmptyString -> spec_isValidKeyPath h)
  /\ (exists h, In h headers /\ h <> EmptyString).

(** ** Values *)

(** What a cell of [Range.values] holds. *)
Inductive scalar : Type :=
| SNum (n : Z)
| SStr (s : string)
| SBool (b : bool)
| SNull.

(** A record: a tree of mappings with scalar leaves.  A mapping is the list
    of its own properties, in insertion order. *)
Inductive value : Type :=
| Leaf (s : scalar)
| Obj (props : list (string * value)).

Definition object : Type := list (string * value).

Definition truthyScalar (s : scalar) : bool :=
  match s with
  | SNum n => negb (n =? 0)%Z
  | SStr t => truthyString t
  | SBool b => b
  | SNull => false
  end.

Definition truthy (v : value) : bool :=
  match v with
  | Leaf s => truthyScalar s
  | Obj _ => true
  end.

(** [undefined] is falsy. *)
Definition truthyOpt (v : option value) : bool :=
  match v with
  | Some x => truthy x
  | None => false
  end.

(** Own-property read. *)
Fixpoint getOwn (k : string) (o : object) : option value :=
  match o with
  | [] => None
  | (j, v) :: rest => if String.eqb k j then Some v else getOwn k rest
  end.

(** Own-property write: an existing property keeps its place, a new one
    goes last. *)
Fixpoint setOwn (k : string) (v : value) (o : object) : object :=
  match o with
  | [] => [(k, v)]
  | (j, w) :: rest => if String.eqb k j then (j, v) :: rest else (j, w) :: setOwn k v rest
  end.

(** ** Outcomes *)

(** A computation returns, throws a [TypeError], or leaves the record for a
    built-in object, where the embedding stops. *)
Inductive outcome (A : Type) : Type :=
| Returned (a : A)
| Threw
| Escaped.

Arguments Returned {A} a.
Arguments Threw {A}.
Arguments Escaped {A}.

Definition bind {A B : Type} (x : outcome A) (f : A -> outcome B) : outcome B :=
  match x with
  | Returned a => f a
  | Threw => Threw
  | Escaped => Escaped
  end.

Notation "x <- c1 ;; c2" := (bind c1 (fun x => c2))
  (at level 61, c1 at next level, right associativity).

(** [for (let i = from; i < from + count; ++i) body], threading the state the
    body mutates. *)
Fixpoint forLoop {S : Type} (count from : nat) (body : nat -> S -> outcome S) (s : S)
  : outcome S :=
  match count with
  | O => Returned s
  | Datatypes.S count' => s' <- body from s ;; forLoop count' (Datatypes.S from) body s'
  end.

(** ** The host: strictness and the prototype chain *)

Inductive mode : Type := Sloppy | Strict.

Definition hasName (names : list string) (k : string) : bool :=
  existsb (String.eqb k) names.

(** The properties of [Object.prototype]. *)
Definition objectPrototypeNames : list string :=
  [ "constructor"; "hasOwnProperty"; "isPrototypeOf"; "propertyIsEnumerable";
    "toLocaleString"; "toString"; "valueOf"; "__proto__";
    "__defineGetter__"; "__defineSetter__"; "__lookupGetter__"; "__lookupSetter__" ].

Definition numberPrototypeNames : list string :=
  [ "toExponential"; "toFixed"; "toPrecision" ].

Definition stringPrototypeNames : list string :=
  [ "length"; "anchor"; "at"; "big"; "blink"; "bold"; "charAt"; "charCodeAt";
    "codePointAt"; "concat"; "endsWith"; "fixed"; "fontcolor"; "fontsize";
    "includes"; "indexOf"; "isWellFormed"; "italics"; "lastIndexOf"; "link";
    "localeCompare"; "match"; "matchAll"; "normalize"; "padEnd"; "padStart";
    "repeat"; "replace"; "replaceAll"; "search"; "slice"; "small"; "split";
    "startsWith"; "strike"; "sub"; "substr"; "substring"; "sup";
    "toLocaleLowerCase"; "toLocaleUpperCase"; "toLowerCase"; "toUpperCase";
    "toWellFormed"; "trim"; "trimEnd"; "trimLeft"; "trimRight"; "trimStart" ].

Definition objectPrototypeHas (k : string) : bool := hasName objectPrototypeNames k.

Definition isDigits (k : string) : bool :=
  negb (String.eqb k EmptyString) && allChars (inRange "0" "9") k.

(** May [k] name a property of the primitive [s], through its wrapper and
    the wrapper's prototype chain?  Digit strings are counted for every
    string, whatever its length. *)
Definition primitiveHas (s : scalar) (k : string) : bool :=
  objectPrototypeHas k ||
  match s with
  | SNum _ => hasName numberPrototypeNames k
  | SStr _ => hasName stringPrototypeNames k || isDigits k
  | SBool _ => false
  | SNull => false
  end.

(** ** References into the record under construction *)

(** What [innerObject] refers to: a mapping of the record [o], named by its
    path from the root ([[]] is [o] itself), a primitive, or [undefined]. *)
Inductive ref : Type :=
| InRecord (path : list string)
| Primitive (s : scalar)
| Undefined.

(** The mapping of [o] under [path]. *)
Fixpoint objAt (path : list string) (o : object) : option object :=
  match path with
  | [] => Some o
  | k :: rest =>
      match getOwn k o with
      | Some (Obj p) => objAt rest p
      | _ => None
      end
  end.

(** Write property [k] of the mapping under [path]; everything that holds
    a reference to that mapping sees the write. *)
Fixpoint putAt (path : list string) (k : string) (v : value) (o : object) : object :=
  match path with
  | [] => setOwn k v o
  | j :: rest =>
      match getOwn j o with
      | Some (Obj p) => setOwn j (Obj (putAt rest k v p)) o
      | _ => o
      end
  end.

(** The read [innerObject[k]].  [None] is [undefined].  Reading a property of
    [undefined] or [null] throws. *)
Definition getProp (o : object) (r : ref) (k : string) : outcome (option value) :=
  match r with
  | InRecord path =>
      match objAt path o with
      | Some p =>
          match getOwn k p with
          | Some v => Returned (Some v)
          | None => if objectPrototypeHas k then Escaped else Returned None
          end
      | None => Escaped
      end
  | Primitive SNull => Threw
  | Primitive s => if primitiveHas s k then Escaped else Returned None
  | Undefined => Threw
  end.

(** The write [innerObject[k] = v].  On a mapping it creates or replaces an
    own property, except for [__proto__], which is a setter of
    [Object.prototype].  On a primitive it is dropped in sloppy mode and
    throws in strict mode. *)
Definition setProp (m : mode) (o : object) (r : ref) (k : string) (v : value)
  : outcome object :=
  match r with
  | InRecord path =>
      if String.eqb k "__proto__" then Escaped else Returned (putAt path k v o)
  | Primitive SNull => Threw
  | Primitive s =>
      if primitiveHas s k then Escaped
      else match m with Sloppy => Returned o | Strict => Threw end
  | Undefined => Threw
  end.

(** The reference obtained by [innerObject = innerObject[k]] when the read
    gave [v]. *)
Definition follow (r : ref) (k : string) (v : option value) : ref :=
  match v with
  | None => Undefined
  | Some (Leaf s) => Primitive s
  | Some (Obj _) =>
      match r with
      | InRecord path => InRecord (path ++ [k])
      | _ => Undefined
      end
  end.

(** ** [buildObject] (source lines 105-132) *)

(** One turn of the loop over the intermediate segments (lines 122-125):
    [if (!innerObject[k]) innerObject[k] = {}; innerObject = innerObject[k]]. *)
Definition walkStep (m : mode) (k : string) (st : object * ref) : outcome (object * ref) :=
  let '(o, innerObject) := st in
  v <- getProp o innerObject k ;;
  o' <- (if negb (truthyOpt v) then setProp m o innerObject k (Obj []) else Returned o) ;;
  v' <- getProp o' innerObject k ;;
  Returned (o', follow innerObject k v').

(** Lines 119-127: split the attribute, walk the intermediate segments from
    the record's root, assign the cell under the last segment. *)
Definition assignAttr (m : mode) (attr : string) (cell : scalar) (o : object)
  : outcome object :=
  let attrKeys := split dot attr in
  st <- forLoop (List.length attrKeys - 1) 0
          (fun l st => walkStep m (nth l attrKeys EmptyString) st) (o, InRecord []) ;;
  setProp m (fst st) (snd st) (nth (List.length attrKeys - 1) attrKeys EmptyString) (Leaf cell).

(** Lines 109-128: one row.  [keys[c]] is [undefined] past the end of
    [keys]; [undefined] and the empty string are both falsy. *)
Definition buildRow (m : mode) (keys : list string) (cols : list scalar) : outcome object :=
  forLoop (List.length cols) 0
    (fun c o =>
       let cell := nth c cols SNull in
       match nth_error keys c with
       | Some attr => if truthyString attr then assignAttr m attr cell o else Returned o
       | None => Returned o
       end)
    [].

Definition buildObject (m : mode) (values : list (list scalar)) (keys : list string)
  : outcome (list object) :=
  forLoop (List.length values) 0
    (fun row result =>
       o <- buildRow m keys (nth row values []) ;;
       Returned (result ++ [o]))
    [].

(** ** [JSON.stringify] on records *)

Definition quoteMark : ascii := ascii_of_nat 34.
Definition backslash : ascii := ascii_of_nat 92.

Definition hexDigit (n : nat) : ascii :=
  if (n <? 10)%nat then ascii_of_nat (48 + n) else ascii_of_nat (87 + n).

(** The escape of one character inside a JSON string. *)
Definition escapeChar (c : ascii) : string :=
  let n := nat_of_ascii c in
  let esc (x : ascii) := String backslash (String x EmptyString) in
  if (n =? 34)%nat then esc quoteMark
  else if (n =? 92)%nat then esc backslash
  else if (n =? 8)%nat then esc "b"%char
  else if (n =? 12)%nat then esc "f"%char
  else if (n =? 10)%nat then esc "n"%char
  else if (n =? 13)%nat then esc "r"%char
  else if (n =? 9)%nat then esc "t"%char
  else if (n <? 32)%nat then
    String backslash
      (String "u" (String "0" (String "0"
         (String (hexDigit (n / 16)) (String (hexDigit (n mod 16)) EmptyString)))))
  else String c EmptyString.

Fixpoint escapeString (s : string) : string :=
  match s with
  | EmptyString => EmptyString
  | String c rest => escapeChar c ++ escapeString rest
  end.

Definition quote (s : string) : string :=
  String quoteMark (escapeString s ++ String quoteMark EmptyString).

Definition numberToString (n : Z) : string :=
  NilZero.string_of_int (Z.to_int n).

Definition stringifyScalar (s : scalar) : string :=
  match s with
  | SNum n => numberToString n
  | SStr t => quote t
  | SBool true => "true"
  | SBool false => "false"
  | SNull => "null"
  end.

(** Own keys are enumerated with the array indices first, in ascending
    numeric order, and the other keys after them in insertion order. *)
Fixpoint digitsValue (acc : N) (k : string) : N :=
  match k with
  | EmptyString => acc
  | String c rest => digitsValue (acc * 10 + (N.of_nat (nat_of_ascii c) - 48))%N rest
  end.

Definition isArrayIndex (k : string) : bool :=
  isDigits k
  && (String.eqb k "0" || negb (String.prefix "0" k))
  && (digitsValue 0 k <? 4294967295)%N.

Fixpoint insertByIndex {A : Type} (kv : string * A) (sorted : list (string * A))
  : list (string * A) :=
  match sorted with
  | [] => [kv]
  | kv' :: rest =>
      if (digitsValue 0 (fst kv) <=? digitsValue 0 (fst kv'))%N then kv :: sorted
      else kv' :: insertByIndex kv rest
  end.

Definition ownPropertyOrder {A : Type} (ps : list (string * A)) : list (string * A) :=
  fold_right insertByIndex [] (filter (fun kv => isArrayIndex (fst kv)) ps)
  ++ filter (fun kv => negb (isArrayIndex (fst kv))) ps.

Fixpoint JSON_stringify (v : value) : string :=
  match v with
  | Leaf s => stringifyScalar s
  | Obj props =>
      let fix members (ps : list (string * value)) : list (string * string) :=
        match ps with
        | [] => []
        | (k, x) :: rest => (k, JSON_stringify x) :: members rest
        end in
      "{" ++ join "," (map (fun kv => (quote (fst kv) ++ ":" ++ snd kv)%string)
                           (ownPropertyOrder (members props))) ++ "}"
  end.

(** No character of the string is a control character (below U+0020). *)
Definition noControlChars (s : string) : bool :=
  allChars (fun c => (32 <=? nat_of_ascii c)%nat) s.

(** ** The line formatter (source lines 172-179) *)

(** [Array.prototype.map] with the element's index. *)
Fixpoint mapiFrom {A B : Type} (i : nat) (f : A -> nat -> B) (l : list A) : list B :=
  match l with
  | [] => []
  | x :: rest => f x i :: mapiFrom (S i) f rest
  end.

Definition mapi {A B : Type} (f : A -> nat -> B) (l : list A) : list B := mapiFrom 0 f l.

(** [(data) => ['[', ...data.map((o, index) =>
      JSON.stringify(o, null) + (index < data.length - 1 ? ',' : '')), ']']] *)
Definition jsonFormatter (data : list object) : list string :=
  ["["]
  ++ mapi (fun o index =>
             (JSON_stringify (Obj o)
              ++ (if (Z.of_nat index <? Z.of_nat (List.length data) - 1)%Z
                  then "," else ""))%string)
          data
  ++ ["]"].

(** ** Tables (source lines 40-85 and 134-165) *)

Record TableDetail : Type := mkTableDetail {
  name : string;
  attrRow : list string;
  isValid : bool;
  body : list (list scalar)
}.

(** What the workbook holds for one table: its name, the text of the row
    above it ([None] when the table starts on the first row of the sheet)
    and the values of its data body. *)
Record SheetTable : Type := mkSheetTable {
  tableName : string;
  rowAbove : option (list string);
  dataBody : list (list scalar)
}.

(** Lines 61-79: the attribute row is the row above the table, or the empty
    row when there is none; the flag is computed from it. *)
Definition fetchAllTables (tables : list SheetTable) : list TableDetail :=
  map (fun t =>
         let text0 := match rowAbove t with Some r => r | None => [] end in
         {| name := tableName t;
            attrRow := text0;
            isValid := validAttrRow text0;
            body := dataBody t |})
      tables.

(** Lines 146-150: the three metadata rows. *)
Definition metadataValues (tables : list TableDetail)
  : list string * list bool * list nat :=
  (map (fun t => name t) tables,
   map (fun t => isValid t) tables,
   map (fun t => if isValid t then List.length (body t) else 0) tables).

(** Lines 153-161: one column of lines per table. *)
Definition jsonValues (m : mode) (formatter : list object -> list string)
    (tables : list TableDetail) : outcome (list (list string)) :=
  forLoop (List.length tables) 0
    (fun i acc =>
       match nth_error tables i with
       | Some t =>
           if isValid t then
             tableArray <- buildObject m (body t) (attrRow t) ;;
             Returned (acc ++ [formatter tableArray])
           else Returned (acc ++ [[]])
       | None => Threw
       end)
    [].

(** Line 38: [a[0].map((_, c) => a.map(r => r[c]))].  The first column
    decides how many rows come out; [None] is [undefined]. *)
Definition transpose {T : Type} (a : list (list T)) : outcome (list (list (option T))) :=
  match a with
  | [] => Threw
  | a0 :: _ => Returned (mapi (fun _ c => map (fun r => nth_error r c) a) a0)
  end.

(** What [updateSheet] writes below the header column: the metadata rows,
    the size of the range of JSON cells and the values assigned to it. *)
Record SheetWrite : Type := mkSheetWrite {
  metadata : list string * list bool * list nat;
  jsonRangeRows : nat;
  jsonRangeColumns : nat;
  jsonRangeValues : list (list (option string))
}.

(** Lines 144-164.  The range of JSON cells has [rowMaxLength] rows, the
    length of the longest column, and one column per table; it is assigned
    [transpose(jsonValues)].  With no table at all [transpose] throws on
    [a[0]]. *)
Definition updateSheet (m : mode) (tables : list TableDetail)
    (jsonFormatter : list object -> list string) : outcome SheetWrite :=
  cols <- jsonValues m jsonFormatter tables ;;
  grid <- transpose cols ;;
  Returned {| metadata := metadataValues tables;
              jsonRangeRows := fold_right Nat.max 0 (map (@List.length string) cols);
              jsonRangeColumns := List.length tables;
              jsonRangeValues := grid |}.

(** ** The builder as a recursive insertion *)

(** The walk of [assignAttr] from a primitive: nothing is stored; the walk
    only decides whether the assignment throws. *)
Definition primAssign (m : mode) (s : scalar) (segs : list string) : outcome unit :=
  match segs with
  | [] => Returned tt
  | k :: rest =>
      match s with
      | SNull => Threw
      | _ =>
          if primitiveHas s k then Escaped
          else match m with
               | Strict => Threw
               | Sloppy => match rest with [] => Returned tt | _ :: _ => Threw end
               end
      end
  end.

(** Insert [cell] under the path [segs] of the mapping [o]. *)
Fixpoint insertPath (m : mode) (segs : list string) (cell : scalar) (o : object)
  : outcome object :=
  match segs with
  | [] => Returned o
  | k :: rest =>
      match rest with
      | [] => if String.eqb k "__proto__" then Escaped
              else Returned (setOwn k (Leaf cell) o)
      | _ :: _ =>
          match getOwn k o with
          | Some (Obj p) =>
              p' <- insertPath m rest cell p ;; Returned (setOwn k (Obj p') o)
          | Some (Leaf s) =>
              if truthyScalar s then _ <- primAssign m s rest ;; Returned o
              else if String.eqb k "__proto__" then Escaped
              else p' <- insertPath m rest cell [] ;; Returned (setOwn k (Obj p') o)
          | None =>
              if objectPrototypeHas k then Escaped
              else p' <- insertPath m rest cell [] ;; Returned (setOwn k (Obj p') o)
          end
      end
  end.

(** One row, column by column over the aligned prefix of keys and cells. *)
Fixpoint insertRow (m : mode) (keys : list string) (cols : list scalar) (o : object)
  : outcome object :=
  match keys, cols with
  | attr :: keys', cell :: cols' =>
      o' <- (if truthyString attr then insertPath m (split dot attr) cell o
             else Returned o) ;;
      insertRow m keys' cols' o'
  | _, _ => Returned o
  end.

Fixpoint mapOutcome {A B : Type} (f : A -> outcome B) (l : list A) : outcome (list B) :=
  match l with
  | [] => Returned []
  | x :: rest => y <- f x ;; ys <- mapOutcome f rest ;; Returned (y :: ys)
  end.

(** Replace the mapping of [o] under [path] by [p']. *)
Fixpoint replaceAt (path : list string) (p' : object) (o : object) : object :=
  match path with
  | [] => p'
  | j :: rest =>
      match getOwn j o with
      | Some (Obj q) => setOwn j (Obj (replaceAt rest p' q)) o
      | _ => o
      end
  end.

(** The whole assignment of lines 121-127 from an arbitrary state. *)
Definition walkFrom (m : mode) (segs : list string) (cell : scalar) (st : object * ref)
  : outcome object :=
  st' <- forLoop (List.length segs - 1) 0
           (fun l st => walkStep m (nth l segs EmptyString) st) st ;;
  setProp m (fst st') (snd st') (nth (List.length segs - 1) segs EmptyString) (Leaf cell).

(** ** Key paths that do not collide *)

(** Is there a scalar under the path [q] of [o]? *)
Fixpoint leafAt (q : list string) (o : object) : bool :=
  match q with
  | [] => false
  | k :: rest =>
      match getOwn k o with
      | Some (Leaf _) => match rest with [] => true | _ :: _ => false end
      | Some (Obj p) => leafAt rest p
      | None => false
      end
  end.

Fixpoint strictPrefix (p q : list string) : bool :=
  match p, q with
  | [], _ :: _ => true
  | a :: p', b :: q' => String.eqb a b && strictPrefix p' q'
  | _, _ => false
  end.

Definition plainName (k : string) : bool := negb (objectPrototypeHas k).

(** The key paths of the columns that [buildObject] uses. *)
Definition usedPaths (keys : list string) : list (list string) :=
  map (split dot) (filter truthyString keys).

(** No path extends a path of an earlier column, and no segment is a name
    that [Object.prototype] supplies. *)
Fixpoint collisionFree (seen paths : list (list string)) : bool :=
  match paths with
  | [] => true
  | p :: rest =>
      forallb plainName p
      && forallb (fun q => negb (strictPrefix q p)) seen
      && collisionFree (p :: seen) rest
  end.

(** Every scalar of [o] sits under a path of [seen], the paths of [o] being
    read below the prefix [pre]. *)
Definition leavesIn (pre : list string) (seen : list (list string)) (o : object) : Prop :=
  forall q, leafAt q o = true -> In (pre ++ q) seen.

(** Remove column [c]. *)
Definition dropCol {A : Type} (c : nat) (l : list A) : list A :=
  firstn c l ++ skipn (S c) l.

(** A name that no built-in object on the walk's way supplies: neither
    [Object.prototype] nor the wrapper of a primitive. *)
Definition freshName (k : string) : bool :=
  negb (objectPrototypeHas k
        || hasName numberPrototypeNames k
        || hasName stringPrototypeNames k
        || isDigits k).

(** ** Looking a key path up *)

(** The value of [o] under the path [q]. *)
Fixpoint valueAt (q : list string) (o : object) : option value :=
  match q with
  | [] => None
  | k :: rest =>
      match getOwn k o with
      | Some v =>
          match rest with
          | [] => Some v
          | _ :: _ => match v with Obj p => valueAt rest p | Leaf _ => None end
          end
      | None => None
      end
  end.

(** [p] is [q] or a path that [q] extends. *)
Fixpoint isPrefix (p q : list string) : bool :=
  match p, q with
  | [], _ => true
  | a :: p', b :: q' => String.eqb a b && isPrefix p' q'
  | _ :: _, [] => false
  end.

Definition comparable (p q : list string) : bool := isPrefix p q || isPrefix q p.

(** The key paths are pairwise distinct, none extends another, and no
    segment is a name that [Object.prototype] supplies. *)
Fixpoint separatePaths (seen paths : list (list string)) : bool :=
  match paths with
  | [] => true
  | p :: rest =>
      forallb plainName p
      && forallb (fun q => negb (comparable q p)) seen
      && separatePaths (p :: seen) rest
  end.

(** ** The command (source lines 31-36 and 167-196) *)

(** What the [try] block can raise: a string, or an object.  Of an object
    the handler reads [debugInfo] ([None] when it is [undefined]; otherwise
    the text its [toString()] gives) and [message] ([Some] when it is a
    string). *)
Inductive thrown : Type :=
| ThrownString (s : string)
| ThrownObject (debugInfo : option string) (message : option string).

(** [typeof error.debugInfo]. *)
Definition typeofDebugInfo (debugInfo : option string) : string :=
  match debugInfo with
  | Some _ => "object"
  | None => "undefined"
  end.

(** Lines 182-192: the message the handler passes to [alert].  Calling
    [toString] on [undefined] throws. *)
Definition catchHandler (error : thrown) : outcome string :=
  match error with
  | ThrownString s => Returned s
  | ThrownObject debugInfo message =>
      if truthyString (typeofDebugInfo debugInfo) then
        match debugInfo with
        | Some text => Returned text
        | None => Threw
        end
      else
        match message with
        | Some s => Returned s
        | None => Returned "error"
        end
  end.

(** Line 33: the address of the dialog that [alert] opens. *)
Definition alertUrl (msg : string) : string := "https://localhost:3000/#" ++ msg.

(** What a run of the command leaves behind when it reaches
    [event.completed()]: the sheet it wrote, or the dialog it opened. *)
Record commandRun : Type := mkCommandRun {
  sheet : option SheetWrite;
  dialog : option string
}.

(** Lines 167-196, the requests to Excel taken to succeed.  A [TypeError]
    of the conversion is an object with a [message] and no [debugInfo].
    [Returned] means that [event.completed()] was reached, [Threw] that the
    command's promise was rejected before it. *)
Definition makeJsonSheet (m : mode) (typeErrorMessage : string)
    (workbook : list SheetTable) : outcome commandRun :=
  match updateSheet m (fetchAllTables workbook) jsonFormatter with
  | Returned w => Returned {| sheet := Some w; dialog := None |}
  | Threw =>
      msg <- catchHandler (ThrownObject None (Some typeErrorMessage)) ;;
      Returned {| sheet := None; dialog := Some (alertUrl msg) |}
  | Escaped => Escaped
  end.

(** ** Properties of the embedding *)

Section Outcome.
Context {A B C : Type}.

Lemma bind_Returned_r (x : outcome A) : (a <- x ;; Returned a) = x.
Proof. destruct x; reflexivity. Qed.

Lemma bind_assoc (x : outcome A) (f : A -> outcome B) (g : B -> outcome C) :
  (b <- (a <- x ;; f a) ;; g b) = (a <- x ;; b <- f a ;; g b).
Proof. destruct x; reflexivity. Qed.

Lemma bind_ext (x : outcome A) (f g : A -> outcome B) :
  (forall a, f a = g a) -> bind x f = bind x g.
Proof. intros E. destruct x; simpl; auto. Qed.

Lemma bind_inv (x : outcome A) (f : A -> outcome B) (b : B) :
  bind x f = Returned b -> exists a, x = Returned a /\ f a = Returned b.
Proof. destruct x; simpl; intros E; try discriminate. eauto. Qed.

End Outcome.

Section Loops.
Context {S : Type}.

Lemma forLoop_ext (body1 body2 : nat -> S -> outcome S) :
  (forall i s, body1 i s = body2 i s) ->
  forall count from s, forLoop count from body1 s = forLoop count from body2 s.
Proof.
  intros E count. induction count as [|n IH]; intros from s; simpl.
  - reflexivity.
  - rewrite E. apply bind_ext. intros a. apply IH.
Qed.

(** A loop that starts one index later is the loop over the shifted body. *)
Lemma forLoop_shift (body : nat -> S -> outcome S) :
  forall count from s,
    forLoop count (Datatypes.S from) body s
    = forLoop count from (fun i => body (Datatypes.S i)) s.
Proof.
  induction count as [|n IH]; intros from s; simpl.
  - reflexivity.
  - apply bind_ext. intros a. apply IH.
Qed.

End Loops.

(** *** Own properties *)

Lemma getOwn_setOwn_same k v o : getOwn k (setOwn k v o) = Some v.
Proof.
  induction o as [|[j w] rest IH]; simpl.
  - now rewrite String.eqb_refl.
  - destruct (String.eqb k j) eqn:E; simpl; rewrite E; auto.
Qed.

Lemma getOwn_setOwn_other k j v o :
  String.eqb j k = false -> getOwn j (setOwn k v o) = getOwn j o.
Proof.
  intros N. induction o as [|[i w] rest IH]; simpl.
  - now rewrite N.
  - destruct (String.eqb k i) eqn:E; simpl.
    + apply String.eqb_eq in E. subst i. now rewrite N.
    + destruct (String.eqb j i); auto.
Qed.

Lemma setOwn_setOwn k v w o : setOwn k v (setOwn k w o) = setOwn k v o.
Proof.
  induction o as [|[j u] rest IH]; simpl.
  - now rewrite String.eqb_refl.
  - destruct (String.eqb k j) eqn:E; simpl; rewrite E; congruence.
Qed.

Lemma setOwn_same k v o : getOwn k o = Some v -> setOwn k v o = o.
Proof.
  induction o as [|[j u] rest IH]; simpl; intros G.
  - discriminate.
  - destruct (String.eqb k j) eqn:E.
    + congruence.
    + f_equal. auto.
Qed.

(** *** References *)

Lemma objAt_app path k o :
  objAt (path ++ [k]) o
  = match objAt path o with
    | Some p => match getOwn k p with Some (Obj q) => Some q | _ => None end
    | None => None
    end.
Proof.
  revert o. induction path as [|j rest IH]; intros o; simpl.
  - destruct (getOwn k o) as [[s|q]|]; reflexivity.
  - destruct (getOwn j o) as [[s|q]|]; auto.
Qed.

Lemma putAt_replaceAt path k v o p :
  objAt path o = Some p -> putAt path k v o = replaceAt path (setOwn k v p) o.
Proof.
  revert o. induction path as [|j rest IH]; intros o; simpl.
  - congruence.
  - destruct (getOwn j o) as [[s|q]|]; try discriminate.
    intros H. now rewrite (IH q H).
Qed.

Lemma objAt_replaceAt path p' o p :
  objAt path o = Some p -> objAt path (replaceAt path p' o) = Some p'.
Proof.
  revert o. induction path as [|j rest IH]; intros o; simpl.
  - reflexivity.
  - destruct (getOwn j o) as [[s|q]|] eqn:G; try discriminate.
    intros H. rewrite getOwn_setOwn_same. eauto.
Qed.

Lemma replaceAt_replaceAt path p' p'' o :
  replaceAt path p' (replaceAt path p'' o) = replaceAt path p' o.
Proof.
  revert o. induction path as [|j rest IH]; intros o; simpl.
  - reflexivity.
  - destruct (getOwn j o) as [[s|q]|] eqn:G; try now rewrite G.
    now rewrite getOwn_setOwn_same, setOwn_setOwn, IH.
Qed.

Lemma replaceAt_same path o p : objAt path o = Some p -> replaceAt path p o = o.
Proof.
  revert o. induction path as [|j rest IH]; intros o; simpl.
  - congruence.
  - destruct (getOwn j o) as [[s|q]|] eqn:G; try discriminate.
    intros H. rewrite (IH q H). now apply setOwn_same.
Qed.

Lemma replaceAt_app path k q' o p q :
  objAt path o = Some p -> getOwn k p = Some (Obj q) ->
  replaceAt (path ++ [k]) q' o = replaceAt path (setOwn k (Obj q') p) o.
Proof.
  revert o. induction path as [|j rest IH]; intros o; simpl.
  - intros H G. injection H as ->. now rewrite G.
  - destruct (getOwn j o) as [[s|r]|] eqn:E; try discriminate.
    intros H G. now rewrite (IH r H G).
Qed.

(** *** The loop of [assignAttr] is the recursive insertion *)

Lemma walkFrom_one m k cell st :
  walkFrom m [k] cell st = setProp m (fst st) (snd st) k (Leaf cell).
Proof. reflexivity. Qed.

Lemma walkFrom_cons m k k' rest cell st :
  walkFrom m (k :: k' :: rest) cell st
  = st' <- walkStep m k st ;; walkFrom m (k' :: rest) cell st'.
Proof.
  unfold walkFrom. cbn [List.length Nat.sub forLoop nth].
  rewrite Nat.sub_0_r, bind_assoc. apply bind_ext. intros st'.
  now rewrite forLoop_shift.
Qed.

Lemma walkFrom_Undefined m segs cell o :
  segs <> [] -> walkFrom m segs cell (o, Undefined) = Threw.
Proof.
  destruct segs as [|k [|k' rest]]; intros N.
  - congruence.
  - reflexivity.
  - rewrite walkFrom_cons. reflexivity.
Qed.

Lemma walkFrom_Primitive m segs cell o s :
  segs <> [] ->
  walkFrom m segs cell (o, Primitive s) = _ <- primAssign m s segs ;; Returned o.
Proof.
  destruct segs as [|k [|k' rest]]; intros N.
  - congruence.
  - rewrite walkFrom_one. simpl.
    destruct s; simpl; try reflexivity;
      match goal with |- context [primitiveHas ?s ?k] => destruct (primitiveHas s k) end;
      destruct m; reflexivity.
  - rewrite walkFrom_cons. unfold walkStep, primAssign.
    destruct s; simpl; try reflexivity;
      match goal with |- context [primitiveHas ?s ?k] =>
        destruct (primitiveHas s k) eqn:E end; simpl; try reflexivity;
      destruct m; simpl; try reflexivity; rewrite ?E; simpl;
      now rewrite walkFrom_Undefined.
Qed.

Lemma walkFrom_InRecord m segs cell :
  segs <> [] ->
  forall path o p,
    objAt path o = Some p ->
    walkFrom m segs cell (o, InRecord path)
    = p' <- insertPath m segs cell p ;; Returned (replaceAt path p' o).
Proof.
  induction segs as [|k rest IH]; intros N path o p H; [congruence|].
  destruct rest as [|k' rest].
  - rewrite walkFrom_one. simpl.
    destruct (String.eqb k "__proto__"); simpl; [reflexivity|].
    now rewrite (putAt_replaceAt _ _ _ _ _ H).
  - rewrite walkFrom_cons.
    assert (N' : k' :: rest <> []) by discriminate.
    specialize (IH N').
    assert (Fresh : String.eqb k "__proto__" = false ->
              (st' <- (o' <- setProp m o (InRecord path) k (Obj []) ;;
                       v' <- getProp o' (InRecord path) k ;;
                       Returned (o', follow (InRecord path) k v')) ;;
               walkFrom m (k' :: rest) cell st')
              = p' <- (q' <- insertPath m (k' :: rest) cell [] ;;
                       Returned (setOwn k (Obj q') p)) ;;
                Returned (replaceAt path p' o)).
    { intros P. unfold setProp. rewrite P. cbn [bind].
      unfold getProp. rewrite (putAt_replaceAt _ _ _ _ _ H).
      rewrite (objAt_replaceAt _ _ _ _ H), getOwn_setOwn_same. cbn [bind follow].
      rewrite (IH (path ++ [k]) _ []).
      2:{ rewrite objAt_app, (objAt_replaceAt _ _ _ _ H), getOwn_setOwn_same.
          reflexivity. }
      rewrite bind_assoc. apply bind_ext. intros q'. cbn [bind]. f_equal.
      rewrite (replaceAt_app _ _ _ _ (setOwn k (Obj []) p) []).
      - now rewrite setOwn_setOwn, replaceAt_replaceAt.
      - now apply objAt_replaceAt with (p := p).
      - apply getOwn_setOwn_same. }
    change (insertPath m (k :: k' :: rest) cell p)
      with (match getOwn k p with
            | Some (Obj q) =>
                p' <- insertPath m (k' :: rest) cell q ;; Returned (setOwn k (Obj p') p)
            | Some (Leaf s) =>
                if truthyScalar s then _ <- primAssign m s (k' :: rest) ;; Returned p
                else if String.eqb k "__proto__" then Escaped
                else p' <- insertPath m (k' :: rest) cell [] ;;
                     Returned (setOwn k (Obj p') p)
            | None =>
                if objectPrototypeHas k then Escaped
                else p' <- insertPath m (k' :: rest) cell [] ;;
                     Returned (setOwn k (Obj p') p)
            end).
    unfold walkStep at 1. unfold getProp at 1. rewrite H.
    destruct (getOwn k p) as [[s|q]|] eqn:G; cbn [bind truthyOpt truthy negb].
    + destruct (truthyScalar s) eqn:T; cbn [negb].
      * cbn [bind]. unfold getProp. rewrite H, G. cbn [bind follow].
        rewrite walkFrom_Primitive by assumption.
        rewrite !bind_assoc. apply bind_ext. intros _. cbn [bind].
        now rewrite (replaceAt_same _ _ _ H).
      * destruct (String.eqb k "__proto__") eqn:P.
        -- unfold setProp. now rewrite P.
        -- now apply Fresh.
    + cbn [bind]. unfold getProp. rewrite H, G. cbn [bind follow].
      rewrite (IH (path ++ [k]) o q) by now rewrite objAt_app, H, G.
      rewrite bind_assoc. apply bind_ext. intros q'. cbn [bind]. f_equal.
      now apply replaceAt_app with (q := q).
    + destruct (objectPrototypeHas k) eqn:P; [reflexivity|]. cbn [bind negb].
      apply Fresh. destruct (String.eqb k "__proto__") eqn:Q; [|reflexivity].
      apply String.eqb_eq in Q. subst k. discriminate.
Qed.

Lemma split_nonempty sep s : split sep s <> [].
Proof.
  destruct s as [|c rest]; simpl; [discriminate|].
  destruct (Ascii.eqb c sep); [discriminate|].
  destruct (split sep rest); discriminate.
Qed.

Lemma assignAttr_insertPath m attr cell o :
  assignAttr m attr cell o = insertPath m (split dot attr) cell o.
Proof.
  change (assignAttr m attr cell o)
    with (walkFrom m (split dot attr) cell (o, InRecord [])).
  rewrite (walkFrom_InRecord m _ cell (split_nonempty _ _) [] o o eq_refl).
  simpl. apply bind_Returned_r.
Qed.

(** *** The loops over columns and rows *)

Lemma forLoop_skip {S : Type} (body : nat -> S -> outcome S) :
  (forall i s, body i s = Returned s) ->
  forall count from s, forLoop count from body s = Returned s.
Proof.
  intros E count. induction count as [|n IH]; intros from s; simpl.
  - reflexivity.
  - rewrite E. simpl. apply IH.
Qed.

Lemma insertRow_nil_r m keys o : insertRow m keys [] o = Returned o.
Proof. destruct keys; reflexivity. Qed.

Lemma columns_insertRow m cols :
  forall keys o,
    forLoop (List.length cols) 0
      (fun c o =>
         let cell := nth c cols SNull in
         match nth_error keys c with
         | Some attr => if truthyString attr then assignAttr m attr cell o else Returned o
         | None => Returned o
         end) o
    = insertRow m keys cols o.
Proof.
  induction cols as [|cell cols IH]; intros keys o.
  - now rewrite insertRow_nil_r.
  - cbn [List.length forLoop].
    destruct keys as [|attr keys].
    + cbn [nth_error bind insertRow]. rewrite forLoop_shift. now apply forLoop_skip.
    + cbn [nth_error nth insertRow]. rewrite <- assignAttr_insertPath.
      apply bind_ext. intros o'. rewrite forLoop_shift. apply IH.
Qed.

Lemma buildRow_insertRow m keys cols : buildRow m keys cols = insertRow m keys cols [].
Proof. apply columns_insertRow. Qed.

Lemma rows_mapOutcome m keys values :
  forall result,
    forLoop (List.length values) 0
      (fun row result =>
         o <- buildRow m keys (nth row values []) ;; Returned (result ++ [o])) result
    = rs <- mapOutcome (buildRow m keys) values ;; Returned (result ++ rs).
Proof.
  induction values as [|cols values IH]; intros result.
  - simpl. now rewrite app_nil_r.
  - cbn [List.length forLoop mapOutcome nth]. rewrite !bind_assoc.
    apply bind_ext. intros o. cbn [bind]. rewrite forLoop_shift. cbn [nth].
    rewrite IH, bind_assoc. apply bind_ext. intros rs. simpl.
    now rewrite <- app_assoc.
Qed.

Lemma buildObject_mapOutcome m values keys :
  buildObject m values keys = mapOutcome (buildRow m keys) values.
Proof.
  unfold buildObject. rewrite rows_mapOutcome. simpl. apply bind_Returned_r.
Qed.

Lemma mapOutcome_Returned {A B : Type} (f : A -> outcome B) l rs :
  mapOutcome f l = Returned rs -> Forall2 (fun x y => f x = Returned y) l rs.
Proof.
  revert rs. induction l as [|x l IH]; simpl; intros rs E.
  - injection E as <-. constructor.
  - apply bind_inv in E. destruct E as (y & Ey & E).
    apply bind_inv in E. destruct E as (ys & Eys & E).
    injection E as <-. constructor; auto.
Qed.

Lemma mapOutcome_total {A B : Type} (f : A -> outcome B) l :
  (forall x, In x l -> exists y, f x = Returned y) ->
  exists rs, mapOutcome f l = Returned rs.
Proof.
  induction l as [|x l IH]; simpl; intros T.
  - eauto.
  - destruct (T x (or_introl eq_refl)) as (y & ->).
    destruct IH as (ys & ->); [intros; apply T; auto|].
    simpl. eauto.
Qed.

(** *** Key paths that do not collide are inserted without error *)

Lemma plainName_not_proto k : plainName k = true -> String.eqb k "__proto__" = false.
Proof.
  intros P. destruct (String.eqb k "__proto__") eqn:E; [|reflexivity].
  apply String.eqb_eq in E. subst k. discriminate.
Qed.

Lemma strictPrefix_app pre k k' rest :
  strictPrefix (pre ++ [k]) (pre ++ k :: k' :: rest) = true.
Proof.
  induction pre as [|a pre IH]; simpl.
  - now rewrite String.eqb_refl.
  - now rewrite String.eqb_refl.
Qed.

Lemma leavesIn_nil pre seen : leavesIn pre seen [].
Proof. intros [|k q]; discriminate. Qed.

Lemma leavesIn_child pre seen o k p :
  getOwn k o = Some (Obj p) -> leavesIn pre seen o -> leavesIn (pre ++ [k]) seen p.
Proof.
  intros G L q Hq. rewrite <- app_assoc. apply L. simpl. now rewrite G.
Qed.

Lemma leavesIn_setOwn_Obj pre seen path o k p' :
  leavesIn pre seen o ->
  leavesIn (pre ++ [k]) (path :: seen) p' ->
  leavesIn pre (path :: seen) (setOwn k (Obj p') o).
Proof.
  intros L L' [|j t] Hq; [discriminate|]. simpl in Hq.
  destruct (String.eqb j k) eqn:E.
  - apply String.eqb_eq in E. subst j. rewrite getOwn_setOwn_same in Hq.
    specialize (L' t Hq). now rewrite <- app_assoc in L'.
  - rewrite (getOwn_setOwn_other _ _ _ _ E) in Hq. right. apply L. exact Hq.
Qed.

Lemma insertPath_collisionFree m cell segs :
  segs <> [] ->
  forall pre seen o,
    forallb plainName segs = true ->
    forallb (fun q => negb (strictPrefix q (pre ++ segs))) seen = true ->
    leavesIn pre seen o ->
    exists o', insertPath m segs cell o = Returned o'
               /\ leavesIn pre ((pre ++ segs) :: seen) o'.
Proof.
  induction segs as [|k rest IH]; intros N pre seen o P F L; [congruence|].
  simpl in P. apply andb_true_iff in P. destruct P as [Pk P].
  destruct rest as [|k' rest].
  - simpl. rewrite (plainName_not_proto _ Pk). eexists. split; [reflexivity|].
    intros [|j t] Hq; [discriminate|]. simpl in Hq.
    destruct (String.eqb j k) eqn:E.
    + apply String.eqb_eq in E. subst j. rewrite getOwn_setOwn_same in Hq.
      destruct t; [now left|discriminate].
    + rewrite (getOwn_setOwn_other _ _ _ _ E) in Hq. right. now apply L.
  - assert (N' : k' :: rest <> []) by discriminate.
    assert (F' : forallb (fun q => negb (strictPrefix q ((pre ++ [k]) ++ k' :: rest))) seen
                 = true) by now rewrite <- app_assoc.
    assert (Fresh : exists o', (p' <- insertPath m (k' :: rest) cell [] ;;
                                Returned (setOwn k (Obj p') o)) = Returned o'
                               /\ leavesIn pre ((pre ++ k :: k' :: rest) :: seen) o').
    { destruct (IH N' (pre ++ [k]) seen [] P F' (leavesIn_nil _ _)) as (p' & -> & L').
      simpl. eexists. split; [reflexivity|].
      rewrite <- app_assoc in L'. now apply leavesIn_setOwn_Obj. }
    change (insertPath m (k :: k' :: rest) cell o)
      with (match getOwn k o with
            | Some (Obj p) =>
                p' <- insertPath m (k' :: rest) cell p ;; Returned (setOwn k (Obj p') o)
            | Some (Leaf s) =>
                if truthyScalar s then _ <- primAssign m s (k' :: rest) ;; Returned o
                else if String.eqb k "__proto__" then Escaped
                else p' <- insertPath m (k' :: rest) cell [] ;;
                     Returned (setOwn k (Obj p') o)
            | None =>
                if objectPrototypeHas k then Escaped
                else p' <- insertPath m (k' :: rest) cell [] ;;
                     Returned (setOwn k (Obj p') o)
            end).
    destruct (getOwn k o) as [[s|p]|] eqn:G.
    + exfalso. assert (I : In (pre ++ [k]) seen) by (apply L; simpl; now rewrite G).
      rewrite forallb_forall in F. specialize (F _ I).
      now rewrite strictPrefix_app in F.
    + destruct (IH N' (pre ++ [k]) seen p P F' (leavesIn_child _ _ _ _ _ G L))
        as (p' & -> & L').
      simpl. eexists. split; [reflexivity|].
      rewrite <- app_assoc in L'. now apply leavesIn_setOwn_Obj.
    + unfold plainName in Pk. apply negb_true_iff in Pk. rewrite Pk. exact Fresh.
Qed.

Lemma usedPaths_cons attr keys :
  usedPaths (attr :: keys)
  = if truthyString attr then split dot attr :: usedPaths keys else usedPaths keys.
Proof. unfold usedPaths. simpl. now destruct (truthyString attr). Qed.

Lemma insertRow_collisionFree m keys :
  forall cols seen o,
    collisionFree seen (usedPaths keys) = true ->
    leavesIn [] seen o ->
    exists o', insertRow m keys cols o = Returned o'.
Proof.
  induction keys as [|attr keys IH]; intros cols seen o C L.
  - simpl. eauto.
  - destruct cols as [|cell cols]; [simpl; eauto|].
    rewrite usedPaths_cons in C. cbn [insertRow].
    destruct (truthyString attr).
    + simpl in C. apply andb_true_iff in C. destruct C as [C C3].
      apply andb_true_iff in C. destruct C as [C1 C2].
      destruct (insertPath_collisionFree m cell (split dot attr) (split_nonempty _ _)
                  [] seen o C1 C2 L) as (o' & -> & L').
      simpl. eapply IH; eauto.
    + simpl. eapply IH; eauto.
Qed.

Lemma buildObject_collisionFree m values keys :
  collisionFree [] (usedPaths keys) = true ->
  exists rs, buildObject m values keys = Returned rs.
Proof.
  intros C. rewrite buildObject_mapOutcome. apply mapOutcome_total.
  intros cols _. rewrite buildRow_insertRow.
  apply insertRow_collisionFree with (seen := []); [exact C|apply leavesIn_nil].
Qed.

(** *** The matcher decides the language of the pattern *)

Lemma append_nil_r s : (s ++ "")%string = s.
Proof. induction s; simpl; congruence. Qed.

Lemma append_assoc s t u : ((s ++ t) ++ u)%string = (s ++ (t ++ u))%string.
Proof. induction s; simpl; congruence. Qed.

Lemma append_eq_nil s t : (s ++ t)%string = EmptyString -> s = EmptyString /\ t = EmptyString.
Proof. destruct s; simpl; [auto|discriminate]. Qed.

Lemma append_eq_String s t c u :
  (s ++ t)%string = String c u ->
  (s = EmptyString /\ t = String c u)
  \/ (exists s', s = String c s' /\ u = (s' ++ t)%string).
Proof.
  destruct s as [|c' s']; simpl; intros E.
  - now left.
  - injection E as -> <-. right. eauto.
Qed.

Lemma Matches_nil_nullable r s : Matches r s -> s = EmptyString -> nullable r = true.
Proof.
  induction 1; intros E; simpl; auto; try discriminate.
  - apply append_eq_nil in E. destruct E. now rewrite IHMatches1, IHMatches2.
  - now rewrite IHMatches.
  - rewrite IHMatches by assumption. apply orb_true_r.
Qed.

Lemma nullable_Matches r : nullable r = true -> Matches r EmptyString.
Proof.
  induction r; simpl; intros N; try discriminate.
  - constructor.
  - apply andb_true_iff in N. destruct N. apply (MSeq r1 r2 "" ""); auto.
  - apply orb_true_iff in N. destruct N; [apply MAltL|apply MAltR]; auto.
  - constructor.
Qed.

Lemma Matches_Star_String r t :
  Matches (Star r) t ->
  forall c s, t = String c s ->
    exists s1 s2, s = (s1 ++ s2)%string /\ Matches r (String c s1) /\ Matches (Star r) s2.
Proof.
  intros M. remember (Star r) as r0 eqn:R. revert R.
  induction M; intros R c0 s0 E; try discriminate.
  injection R as ->.
  apply append_eq_String in E. destruct E as [[-> ->]|(s' & -> & ->)].
  - now apply IHM2.
  - eauto.
Qed.

Lemma deriv_sound c r : forall s, Matches (deriv c r) s -> Matches r (String c s).
Proof.
  induction r; simpl; intros s M.
  - inversion M.
  - inversion M.
  - destruct (p c) eqn:P; inversion M; subst. now constructor.
  - assert (L : forall t, Matches (Seq (deriv c r1) r2) t -> Matches (Seq r1 r2) (String c t)).
    { intros t Mt. inversion Mt; subst.
      apply (MSeq r1 r2 (String c s1) s2); auto. }
    destruct (nullable r1) eqn:N; [|auto].
    inversion M; subst; [auto|].
    apply (MSeq r1 r2 "" (String c s)); auto. now apply nullable_Matches.
  - inversion M; subst; [apply MAltL|apply MAltR]; auto.
  - inversion M; subst. apply (MStarS r (String c s1) s2); auto.
Qed.

Lemma deriv_complete c r : forall s, Matches r (String c s) -> Matches (deriv c r) s.
Proof.
  induction r; simpl; intros s M.
  - inversion M.
  - inversion M.
  - inversion M; subst. match goal with H : p c = true |- _ => rewrite H end. constructor.
  - inversion M as [| |? ? s1 s2 M1 M2| | | |]; subst.
    match goal with E : (_ ++ _)%string = String _ _ |- _ =>
      apply append_eq_String in E; destruct E as [[-> ->]|(s' & -> & ->)] end.
    + rewrite (Matches_nil_nullable _ _ M1 eq_refl). apply MAltR. auto.
    + destruct (nullable r1); [apply MAltL|]; constructor; auto.
  - inversion M; subst; [apply MAltL|apply MAltR]; auto.
  - destruct (Matches_Star_String _ _ M c s eq_refl) as (s1 & s2 & -> & M1 & M2).
    constructor; auto.
Qed.

Lemma test_Matches r s : test r s = true <-> Matches r s.
Proof.
  revert r. induction s as [|c s IH]; intros r; simpl.
  - split; [apply nullable_Matches|intros M; now apply Matches_nil_nullable with (s := "")].
  - rewrite IH. split; [apply deriv_sound|apply deriv_complete].
Qed.

(** *** The language of [attrPattern] *)

Lemma Matches_Star_Class p s : Matches (Star (Class p)) s <-> allChars p s = true.
Proof.
  split.
  - intros M. remember (Star (Class p)) as r eqn:R. revert R.
    induction M; intros R; try discriminate; [reflexivity|].
    injection R as ->. inversion M1; subst. simpl.
    match goal with H : p _ = true |- _ => rewrite H end. auto.
  - induction s as [|c s IH]; simpl; intros A.
    + constructor.
    + apply andb_true_iff in A. destruct A as [Pc A].
      apply (MStarS (Class p) (String c "") s); [now constructor|auto].
Qed.

Lemma Matches_Plus_word s : Matches (Plus (Class wordChar)) s <-> isSegment s = true.
Proof.
  unfold Plus, isSegment. split.
  - intros M. inversion M as [| |? ? s1 s2 M1 M2| | | |]; subst.
    inversion M1; subst. apply Matches_Star_Class in M2. simpl.
    match goal with H : wordChar _ = true |- _ => rewrite H end. exact M2.
  - destruct s as [|c s]; simpl; [discriminate|]. intros A.
    apply andb_true_iff in A. destruct A as [Pc A].
    apply (MSeq (Class wordChar) _ (String c "") s); [now constructor|].
    now apply Matches_Star_Class.
Qed.

Lemma Matches_dotted t :
  Matches (Star (Seq (Class (Ascii.eqb dot)) (Plus (Class wordChar)))) t
  <-> exists segs, Forall (fun seg => isSegment seg = true) segs /\ t = dotted segs.
Proof.
  split.
  - intros M.
    remember (Star (Seq (Class (Ascii.eqb dot)) (Plus (Class wordChar)))) as r eqn:R.
    revert R. induction M; intros R; try discriminate.
    + exists []. split; [constructor|reflexivity].
    + injection R as ->. destruct (IHM2 eq_refl) as (segs & F & ->).
      inversion M1 as [| |? ? d seg Md Mseg| | | |]; subst.
      inversion Md as [|? c Hc| | | | |]; subst. apply Ascii.eqb_eq in Hc. subst c.
      apply Matches_Plus_word in Mseg.
      exists (seg :: segs). split; [now constructor|].
      now rewrite append_assoc.
  - intros (segs & F & ->). induction F as [|seg segs S F IH]; simpl.
    + constructor.
    + change (String "." (seg ++ dotted segs))%string
        with ((String "." seg) ++ dotted segs)%string.
      constructor; [|exact IH].
      apply (MSeq _ _ (String "." "") seg).
      * constructor. apply Ascii.eqb_refl.
      * now apply Matches_Plus_word.
Qed.

Lemma join_cons seg segs : join "." (seg :: segs) = (seg ++ dotted segs)%string.
Proof.
  revert seg. induction segs as [|seg' segs IH]; intros seg.
  - simpl. now rewrite append_nil_r.
  - change (join "." (seg :: seg' :: segs))
      with (seg ++ "." ++ join "." (seg' :: segs))%string.
    now rewrite IH.
Qed.

Lemma Matches_attrPattern s : Matches attrPattern s <-> spec_isValidKeyPath s.
Proof.
  unfold attrPattern, spec_isValidKeyPath. split.
  - intros M. inversion M as [| |? ? s1 s2 M1 M2| | | |]; subst.
    apply Matches_Plus_word in M1. apply Matches_dotted in M2.
    destruct M2 as (segs & F & ->).
    exists (s1 :: segs). split; [discriminate|]. split; [now constructor|].
    now rewrite join_cons.
  - intros (segs & N & F & ->). destruct segs as [|seg segs]; [congruence|].
    inversion F; subst. rewrite join_cons. constructor.
    + now apply Matches_Plus_word.
    + apply Matches_dotted. eauto.
Qed.

(** *** Splitting a dotted key path *)

Lemma split_dotFree_append seg rest :
  dotFree seg = true ->
  split dot (seg ++ String dot rest) = seg :: split dot rest.
Proof.
  unfold dotFree. induction seg as [|c seg IH]; simpl; intros D.
  - reflexivity.
  - apply andb_true_iff in D. destruct D as [Dc D].
    apply negb_true_iff in Dc. rewrite Dc, (IH D). reflexivity.
Qed.

Lemma split_dotFree seg : dotFree seg = true -> split dot seg = [seg].
Proof.
  unfold dotFree. induction seg as [|c seg IH]; simpl; intros D.
  - reflexivity.
  - apply andb_true_iff in D. destruct D as [Dc D].
    apply negb_true_iff in Dc. rewrite Dc, (IH D). reflexivity.
Qed.

Lemma split_two k j :
  dotFree k = true -> dotFree j = true -> split dot (k ++ "." ++ j) = [k; j].
Proof.
  intros Dk Dj. change (k ++ "." ++ j)%string with (k ++ String dot j)%string.
  now rewrite (split_dotFree_append _ _ Dk), (split_dotFree _ Dj).
Qed.

Lemma wordChar_not_dot c : wordChar c = true -> negb (Ascii.eqb c dot) = true.
Proof.
  intros W. destruct (Ascii.eqb c dot) eqn:E; [|reflexivity].
  apply Ascii.eqb_eq in E. subst c. discriminate.
Qed.

Lemma isSegment_dotFree seg : isSegment seg = true -> dotFree seg = true.
Proof.
  unfold isSegment, dotFree. intros S. apply andb_true_iff in S. destruct S as [_ S].
  induction seg as [|c seg IH]; simpl in *; [reflexivity|].
  apply andb_true_iff in S. destruct S as [Wc S].
  now rewrite (wordChar_not_dot _ Wc), IH.
Qed.

Lemma isSegment_truthy seg : isSegment seg = true -> truthyString seg = true.
Proof. unfold isSegment, truthyString. intros S. now apply andb_true_iff in S. Qed.

Lemma truthyString_dotted k j : truthyString (k ++ "." ++ j) = true.
Proof. destruct k; reflexivity. Qed.

(** *** One row, two columns *)

Lemma buildObject_one m cols keys :
  buildObject m [cols] keys = o <- insertRow m keys cols [] ;; Returned [o].
Proof.
  rewrite buildObject_mapOutcome. simpl. rewrite buildRow_insertRow.
  apply bind_ext. reflexivity.
Qed.

Lemma insertPath_leaf m k cell o :
  plainName k = true -> insertPath m [k] cell o = Returned (setOwn k (Leaf cell) o).
Proof. intros P. simpl. now rewrite (plainName_not_proto _ P). Qed.


Lemma insertPath_into_child m k j cell p :
  plainName j = true ->
  insertPath m [k; j] cell [(k, Obj p)] = Returned [(k, Obj (setOwn j (Leaf cell) p))].
Proof.
  intros Pj. simpl. now rewrite String.eqb_refl, (plainName_not_proto _ Pj).
Qed.

Lemma insertPath_over_falsy m k j cell s :
  plainName k = true -> plainName j = true -> truthyScalar s = false ->
  insertPath m [k; j] cell [(k, Leaf s)] = Returned [(k, Obj [(j, Leaf cell)])].
Proof.
  intros Pk Pj F. simpl.
  now rewrite String.eqb_refl, F, (plainName_not_proto _ Pk), (plainName_not_proto _ Pj).
Qed.

Lemma insertPath_over_truthy k j cell s :
  truthyScalar s = true -> primitiveHas s j = false ->
  insertPath Sloppy [k; j] cell [(k, Leaf s)] = Returned [(k, Leaf s)].
Proof.
  intros T H. simpl. rewrite String.eqb_refl, T. unfold primAssign. rewrite H.
  destruct s; try reflexivity. discriminate.
Qed.

(** ** The claims *)




(** C10.  One turn of the walk over the intermediate segments, from a
    mapping of the record: a level that is absent, or that holds a falsy
    value ([0], the empty string, [false], [null]), gets a fresh empty
    mapping, which replaces the falsy scalar and is descended into; a truthy
    scalar stays where it is and becomes [innerObject].  For headers [k] and
    [k.j] in one row this means: a falsy first cell is replaced by the
    mapping [{j: ..}], a truthy one is kept and the second cell is lost
    (in sloppy mode, [j] not being a property of the primitive). *)
Theorem walk_replaces_falsy_keeps_truthy :
  (forall s, In s [SNum 0; SStr ""; SBool false; SNull] -> truthyScalar s = false)
  /\ (forall m k path o p,
         objAt path o = Some p ->
         String.eqb k "__proto__" = false ->
         (getOwn k p = None -> objectPrototypeHas k = false ->
          walkStep m k (o, InRecord path)
          = Returned (putAt path k (Obj []) o, InRecord (path ++ [k])))
         /\ (forall v, getOwn k p = Some v -> truthy v = false ->
             walkStep m k (o, InRecord path)
             = Returned (putAt path k (Obj []) o, InRecord (path ++ [k])))
         /\ objAt (path ++ [k]) (putAt path k (Obj []) o) = Some []
         /\ (forall s, getOwn k p = Some (Leaf s) -> truthyScalar s = true ->
             walkStep m k (o, InRecord path) = Returned (o, Primitive s)))
  /\ (forall m k j v1 v2,
         isSegment k = true -> isSegment j = true ->
         plainName k = true -> plainName j = true ->
         (truthyScalar v1 = false ->
          buildObject m [[v1; v2]] [k; (k ++ "." ++ j)%string]
          = Returned [[(k, Obj [(j, Leaf v2)])]])
         /\ (truthyScalar v1 = true -> primitiveHas v1 j = false ->
             buildObject Sloppy [[v1; v2]] [k; (k ++ "." ++ j)%string]
             = Returned [[(k, Leaf v1)]])).
Proof.
  split; [|split].
  - intros s [<-|[<-|[<-|[<-|[]]]]]; reflexivity.
  - intros m k path o p H P.
    assert (Put : objAt path (putAt path k (Obj []) o) = Some (setOwn k (Obj []) p)).
    { rewrite (putAt_replaceAt _ _ _ _ _ H). now apply objAt_replaceAt with (p := p). }
    assert (Fresh : forall v0, getOwn k p = v0 -> truthyOpt v0 = false ->
              (v0 = None -> objectPrototypeHas k = false) ->
              walkStep m k (o, InRecord path)
              = Returned (putAt path k (Obj []) o, InRecord (path ++ [k]))).
    { intros v0 G F A. unfold walkStep, getProp at 1. rewrite H, G.
      assert (R : match v0 with
                  | Some v => Returned (Some v)
                  | None => if objectPrototypeHas k then Escaped else Returned None
                  end = Returned v0).
      { destruct v0; [reflexivity|]. now rewrite A. }
      rewrite R. cbn [bind]. rewrite F. cbn [negb]. unfold setProp. rewrite P.
      cbn [bind]. unfold getProp. now rewrite Put, getOwn_setOwn_same. }
    repeat split.
    + intros G A. apply (Fresh None); auto.
    + intros v G F. apply (Fresh (Some v)); auto. discriminate.
    + now rewrite objAt_app, Put, getOwn_setOwn_same.
    + intros s G T. unfold walkStep, getProp. rewrite H, G. cbn [bind truthyOpt truthy].
      rewrite T. cbn [negb bind]. now rewrite H, G.
  - intros m k j v1 v2 Sk Sj Pk Pj.
    pose proof (isSegment_dotFree _ Sk) as Dk. pose proof (isSegment_dotFree _ Sj) as Dj.
    split; [intros F|intros T H]; rewrite buildObject_one; cbn [insertRow];
      rewrite truthyString_dotted, (isSegment_truthy _ Sk), split_two, split_dotFree
        by assumption;
      rewrite insertPath_leaf by assumption; cbn [bind setOwn].
    + now rewrite insertPath_over_falsy.
    + now rewrite insertPath_over_truthy.
Qed.

Lemma walk_replaces_falsy_keeps_truthy_witness :
  walkStep Sloppy "a" ([], InRecord []) = Returned ([("a", Obj [])], InRecord ["a"])
  /\ walkStep Sloppy "a" ([("a", Leaf (SNum 0))], InRecord [])
     = Returned ([("a", Obj [])], InRecord ["a"])
  /\ walkStep Sloppy "a" ([("a", Leaf (SNum 5))], InRecord [])
     = Returned ([("a", Leaf (SNum 5))], Primitive (SNum 5))
  /\ buildObject Sloppy [[SBool false; SNum 1]] ["a"; "a.b"]
     = Returned [[("a", Obj [("b", Leaf (SNum 1))])]]
  /\ buildObject Sloppy [[SBool true; SNum 1]] ["a"; "a.b"]
     = Returned [[("a", Leaf (SBool true))]].
Proof.
  destruct walk_replaces_falsy_keeps_truthy as (_ & Step & Row).
  destruct (Step Sloppy "a" [] [] _ eq_refl eq_refl) as (Absent & _ & _ & _).
  destruct (Step Sloppy "a" [] [("a", Leaf (SNum 0))] _ eq_refl eq_refl)
    as (_ & Falsy & _ & _).
  destruct (Step Sloppy "a" [] [("a", Leaf (SNum 5))] _ eq_refl eq_refl)
    as (_ & _ & _ & Truthy).
  destruct (Row Sloppy "a" "b" (SBool false) (SNum 1) eq_refl eq_refl eq_refl eq_refl)
    as (RowFalsy & _).
  destruct (Row Sloppy "a" "b" (SBool true) (SNum 1) eq_refl eq_refl eq_refl eq_refl)
    as (_ & RowTruthy).
  split; [exact (Absent eq_refl eq_refl)|].
  split; [exact (Falsy _ eq_refl eq_refl)|].
  split; [exact (Truthy _ eq_refl eq_refl)|].
  split; [exact (RowFalsy eq_refl)|exact (RowTruthy eq_refl eq_refl)].
Defined.

(** *** Rows, aligned and misaligned *)

Lemma insertRow_aligned m keys :
  forall cols o,
    insertRow m keys cols o
    = insertRow m (firstn (Nat.min (List.length keys) (List.length cols)) keys)
                  (firstn (Nat.min (List.length keys) (List.length cols)) cols) o.
Proof.
  induction keys as [|attr keys IH]; intros cols o.
  - reflexivity.
  - destruct cols as [|cell cols]; [reflexivity|].
    cbn [List.length Nat.min firstn insertRow]. apply bind_ext. intros o'. apply IH.
Qed.

Lemma insertRow_trim_cols m keys :
  forall cols o,
    insertRow m keys cols o = insertRow m keys (firstn (List.length keys) cols) o.
Proof.
  induction keys as [|attr keys IH]; intros cols o.
  - reflexivity.
  - destruct cols as [|cell cols]; [reflexivity|].
    cbn [List.length firstn insertRow]. apply bind_ext. intros o'. apply IH.
Qed.

Lemma insertRow_trim_keys m keys :
  forall cols o,
    insertRow m keys cols o = insertRow m (firstn (List.length cols) keys) cols o.
Proof.
  induction keys as [|attr keys IH]; intros cols o.
  - destruct cols; reflexivity.
  - destruct cols as [|cell cols]; [reflexivity|].
    cbn [List.length firstn insertRow]. apply bind_ext. intros o'. apply IH.
Qed.

Lemma mapOutcome_map {A B C : Type} (f : B -> outcome C) (g : A -> B) l :
  mapOutcome f (map g l) = mapOutcome (fun x => f (g x)) l.
Proof. induction l as [|x l IH]; simpl; [reflexivity|]. now rewrite IH. Qed.

Lemma mapOutcome_ext {A B : Type} (f g : A -> outcome B) l :
  (forall x, f x = g x) -> mapOutcome f l = mapOutcome g l.
Proof. intros E. induction l as [|x l IH]; simpl; [reflexivity|]. now rewrite E, IH. Qed.

Lemma buildObject_length m values keys rs :
  buildObject m values keys = Returned rs ->
  List.length rs = List.length values
  /\ Forall2 (fun cols r => buildRow m keys cols = Returned r) values rs.
Proof.
  rewrite buildObject_mapOutcome. intros E. apply mapOutcome_Returned in E.
  split; [symmetry; now apply Forall2_length with (1 := E)|exact E].
Qed.

Lemma insertRow_dropCol m c :
  forall keys cols o,
    nth_error keys c = Some EmptyString ->
    insertRow m keys cols o = insertRow m (dropCol c keys) (dropCol c cols) o.
Proof.
  unfold dropCol. induction c as [|c IH]; intros [|attr keys] cols o E; try discriminate.
  - injection E as ->. destruct cols as [|cell cols]; simpl.
    + now rewrite insertRow_nil_r.
    + reflexivity.
  - destruct cols as [|cell cols]; [reflexivity|].
    cbn [firstn skipn app insertRow]. apply bind_ext. intros o'.
    apply (IH keys cols o' E).
Qed.

Lemma dropCol_middle {A : Type} (before : list A) x after :
  dropCol (List.length before) (before ++ x :: after) = before ++ after.
Proof.
  unfold dropCol. induction before as [|y before IH]; simpl.
  - reflexivity.
  - f_equal. exact IH.
Qed.

(** C5.  Whenever [buildObject] returns, it returns one record per row, the
    record at each position being the one built from the row at that
    position; and it does return whenever the key paths of the header row
    do not collide. *)
Theorem buildObject_one_record_per_row m values keys :
  (forall rs,
      buildObject m values keys = Returned rs ->
      List.length rs = List.length values
      /\ Forall2 (fun cols r => buildRow m keys cols = Returned r) values rs)
  /\ (collisionFree [] (usedPaths keys) = true ->
      exists rs, buildObject m values keys = Returned rs
                 /\ List.length rs = List.length values).
Proof.
  split.
  - intros rs. apply buildObject_length.
  - intros C. destruct (buildObject_collisionFree m values keys C) as (rs & E).
    exists rs. split; [exact E|]. now apply buildObject_length in E.
Qed.

Lemma buildObject_one_record_per_row_witness :
  (List.length [[("id", Leaf (SNum 1))]; [("id", Leaf (SNum 2))]] = 2
   /\ Forall2 (fun cols r => buildRow Strict ["id"] cols = Returned r)
              [[SNum 1]; [SNum 2]]
              [[("id", Leaf (SNum 1))]; [("id", Leaf (SNum 2))]])
  /\ exists rs,
      buildObject Sloppy [[SNum 1; SStr "x"]; [SNum 2; SStr "y"]; [SNum 3; SStr "z"]]
                  ["id"; "tag.name"] = Returned rs
      /\ List.length rs = 3.
Proof.
  split.
  - exact (proj1 (buildObject_one_record_per_row Strict [[SNum 1]; [SNum 2]] ["id"])
                 [[("id", Leaf (SNum 1))]; [("id", Leaf (SNum 2))]] eq_refl).
  - exact (proj2 (buildObject_one_record_per_row Sloppy
                    [[SNum 1; SStr "x"]; [SNum 2; SStr "y"]; [SNum 3; SStr "z"]]
                    ["id"; "tag.name"]) eq_refl).
Defined.

Lemma firstn_app_le {A : Type} (l extra : list A) n :
  n <= List.length l -> firstn n (l ++ extra) = firstn n l.
Proof.
  revert n. induction l as [|x l IH]; intros [|n] L; simpl in *; try reflexivity.
  - lia.
  - f_equal. apply IH. lia.
Qed.

(** C7.  A difference between the column counts of the header row and of
    the rows never makes [buildObject] fail: the cells beyond the header row
    and the header entries beyond a row are ignored, so every row has the
    outcome of its aligned prefix of columns; the call returns whenever the
    aligned prefixes can be built, and what it returns is one record per
    row, the record built from the row's aligned prefix. *)
Theorem misaligned_columns_ignored m values keys :
  buildObject m values keys
  = buildObject m (map (firstn (List.length keys)) values) keys
  /\ (forall cols extra,
         List.length keys <= List.length cols ->
         buildRow m keys (cols ++ extra) = buildRow m keys cols)
  /\ (forall cols extra,
         List.length cols <= List.length keys ->
         buildRow m (keys ++ extra) cols = buildRow m keys cols)
  /\ (forall cols,
         buildRow m keys cols
         = buildRow m (firstn (Nat.min (List.length keys) (List.length cols)) keys)
                      (firstn (Nat.min (List.length keys) (List.length cols)) cols))
  /\ ((forall cols, In cols values ->
          exists r,
            buildRow m (firstn (Nat.min (List.length keys) (List.length cols)) keys)
                       (firstn (Nat.min (List.length keys) (List.length cols)) cols)
            = Returned r) ->
      exists rs, buildObject m values keys = Returned rs)
  /\ (forall rs,
         buildObject m values keys = Returned rs ->
         List.length rs = List.length values
         /\ Forall2 (fun cols r =>
                       buildRow m
                         (firstn (Nat.min (List.length keys) (List.length cols)) keys)
                         (firstn (Nat.min (List.length keys) (List.length cols)) cols)
                       = Returned r)
                    values rs).
Proof.
  assert (Aligned : forall keys' cols,
             buildRow m keys' cols
             = buildRow m (firstn (Nat.min (List.length keys') (List.length cols)) keys')
                          (firstn (Nat.min (List.length keys') (List.length cols)) cols)).
  { intros keys' cols. rewrite !buildRow_insertRow. apply insertRow_aligned. }
  split; [|split; [|split; [|split; [|split]]]].
  - rewrite !buildObject_mapOutcome, mapOutcome_map. apply mapOutcome_ext.
    intros cols. rewrite !buildRow_insertRow. apply insertRow_trim_cols.
  - intros cols extra L. rewrite !buildRow_insertRow.
    rewrite (insertRow_trim_cols m keys (cols ++ extra)), (insertRow_trim_cols m keys cols).
    now rewrite firstn_app_le.
  - intros cols extra L. rewrite !buildRow_insertRow.
    rewrite (insertRow_trim_keys m (keys ++ extra) cols), (insertRow_trim_keys m keys cols).
    now rewrite firstn_app_le.
  - apply Aligned.
  - intros R. rewrite buildObject_mapOutcome. apply mapOutcome_total.
    intros cols I. rewrite Aligned. now apply R.
  - intros rs E. apply buildObject_length in E. destruct E as [L F].
    split; [exact L|].
    apply Forall2_impl with (2 := F). intros cols r Er. now rewrite <- Aligned.
Qed.

Lemma misaligned_columns_ignored_witness :
  buildRow Sloppy ["a"; "b.c"] ([SNum 1; SNum 2] ++ [SNum 3; SNum 4])
  = buildRow Sloppy ["a"; "b.c"] [SNum 1; SNum 2]
  /\ buildRow Sloppy (["a"; "b.c"] ++ ["d"; "e.f"]) [SNum 1; SNum 2]
     = buildRow Sloppy ["a"; "b.c"] [SNum 1; SNum 2]
  /\ (exists rs,
         buildObject Sloppy [[SNum 1; SNum 2; SNum 3]; [SNum 4]; []] ["a"; "b.c"]
         = Returned rs)
  /\ List.length [[("a", Leaf (SNum 1)); ("b", Obj [("c", Leaf (SNum 2))])];
                  [("a", Leaf (SNum 4))]; []]
     = List.length [[SNum 1; SNum 2; SNum 3]; [SNum 4]; []].
Proof.
  destruct (misaligned_columns_ignored Sloppy [[SNum 1; SNum 2; SNum 3]; [SNum 4]; []]
              ["a"; "b.c"]) as (_ & Cells & Keys & _ & Returns & Records).
  split; [exact (Cells [SNum 1; SNum 2] [SNum 3; SNum 4] (le_n 2))|].
  split; [exact (Keys [SNum 1; SNum 2] ["d"; "e.f"] (le_n 2))|].
  split.
  - apply Returns. intros cols [<-|[<-|[<-|[]]]]; eexists; reflexivity.
  - exact (proj1 (Records _ eq_refl)).
Defined.

(** C9.  A column whose header entry is the empty string is skipped: the
    outcome is the outcome on the table without that column, so it does not
    depend on the cells of the column.  Headers [""], [x] over the row
    ["ignored"], [5] give [{x:5}]. *)
Theorem empty_header_column_skipped :
  (forall m values keys c,
      nth_error keys c = Some EmptyString ->
      buildObject m values keys = buildObject m (map (dropCol c) values) (dropCol c keys)
      /\ (forall before cell cell' after,
             List.length before = c ->
             buildRow m keys (before ++ cell :: after)
             = buildRow m keys (before ++ cell' :: after)))
  /\ (forall m, buildObject m [[SStr "ignored"; SNum 5]] [""; "x"]
                = Returned [[("x", Leaf (SNum 5))]]).
Proof.
  split.
  - intros m values keys c E. split.
    + rewrite !buildObject_mapOutcome, mapOutcome_map. apply mapOutcome_ext.
      intros cols. rewrite !buildRow_insertRow. now apply insertRow_dropCol.
    + intros before cell cell' after <-. rewrite !buildRow_insertRow.
      rewrite (insertRow_dropCol m _ keys (before ++ cell :: after) [] E).
      rewrite (insertRow_dropCol m _ keys (before ++ cell' :: after) [] E).
      now rewrite !dropCol_middle.
  - intros []; reflexivity.
Qed.

Lemma empty_header_column_skipped_witness :
  buildObject Sloppy [[SNum 1; SStr "note"; SNum 2]] ["a"; ""; "b"]
  = buildObject Sloppy [[SNum 1; SNum 2]] ["a"; "b"]
  /\ buildRow Sloppy ["a"; ""; "b"] ([SNum 1] ++ SStr "note" :: [SNum 2])
     = buildRow Sloppy ["a"; ""; "b"] ([SNum 1] ++ SBool true :: [SNum 2]).
Proof.
  destruct (proj1 empty_header_column_skipped Sloppy
              [[SNum 1; SStr "note"; SNum 2]] ["a"; ""; "b"] 1 eq_refl) as [Drop Same].
  split; [exact Drop|].
  exact (Same [SNum 1] (SStr "note") (SBool true) [SNum 2] eq_refl).
Defined.

(** *** The validator *)

Lemma isValidAttr_iff s : isValidAttr s = true <-> spec_isValidKeyPath s.
Proof. unfold isValidAttr. now rewrite test_Matches, Matches_attrPattern. Qed.

(** C3.  [isValidAttr] is a total function that returns [true] exactly on
    the strings of the language of [^[A-Za-z0-9_]+(\.[A-Za-z0-9_]+)*$], that
    is on the strings made of one or more non-empty segments of word
    characters joined by single dots, and [false] on every other string,
    among them the empty string, [a.], [.a], [a..b] and [a b]. *)
Theorem isValidAttr_decides_key_paths :
  (forall s,
      (isValidAttr s = true <-> Matches attrPattern s)
      /\ (isValidAttr s = true <-> spec_isValidKeyPath s)
      /\ (isValidAttr s = false <-> ~ spec_isValidKeyPath s))
  /\ isValidAttr "" = false
  /\ isValidAttr "a." = false
  /\ isValidAttr ".a" = false
  /\ isValidAttr "a..b" = false
  /\ isValidAttr "a b" = false
  /\ isValidAttr "a" = true
  /\ isValidAttr "addr.city" = true.
Proof.
  split; [|repeat split].
  intros s. split; [apply test_Matches|]. split; [apply isValidAttr_iff|].
  rewrite <- isValidAttr_iff. destruct (isValidAttr s); split; congruence.
Qed.

(** C4.  The validity flag of a header row is [true] exactly when every
    non-empty entry is a valid key path and some entry is non-empty; the
    empty row and the row of two empty entries are invalid, the row
    [""], [a.b] is valid. *)
Theorem validAttrRow_iff_spec :
  (forall attrRow, validAttrRow attrRow = true <-> spec_isHeaderRowValid attrRow)
  /\ validAttrRow [] = false
  /\ validAttrRow [""; ""] = false
  /\ validAttrRow [""; "a.b"] = true.
Proof.
  split; [|repeat split].
  intros attrRow. unfold validAttrRow, spec_isHeaderRowValid.
  rewrite andb_true_iff, forallb_forall, existsb_exists. split.
  - intros [A (h & I & V)]. split.
    + intros h' I' N. apply isValidAttr_iff. specialize (A h' I').
      apply orb_true_iff in A. destruct A as [A|A]; [|exact A].
      apply negb_true_iff in A. unfold truthyString in A.
      apply negb_false_iff, String.eqb_eq in A. contradiction.
    + exists h. split; [exact I|]. intros ->. discriminate.
  - intros [A (h & I & N)]. split.
    + intros h' I'. destruct (String.eqb h' "") eqn:E.
      * unfold truthyString. now rewrite E.
      * apply String.eqb_neq in E. apply orb_true_iff. right.
        apply isValidAttr_iff. auto.
    + exists h. split; [exact I|]. apply isValidAttr_iff. auto.
Qed.

(** *** The formatter *)

Lemma mapiFrom_commas n records last :
  forall i,
    n = i + List.length records + 1 ->
    mapiFrom i (fun o index =>
                  (JSON_stringify (Obj o)
                   ++ (if (Z.of_nat index <? Z.of_nat n - 1)%Z then "," else ""))%string)
             (records ++ [last])
    = map (fun o => (JSON_stringify (Obj o) ++ ",")%string) records
      ++ [JSON_stringify (Obj last)].
Proof.
  induction records as [|o records IH]; intros i E; simpl.
  - assert (L : (Z.of_nat i <? Z.of_nat n - 1)%Z = false) by (apply Z.ltb_ge; simpl in E; lia).
    now rewrite L, append_nil_r.
  - assert (L : (Z.of_nat i <? Z.of_nat n - 1)%Z = true) by (apply Z.ltb_lt; simpl in E; lia).
    rewrite L. f_equal. apply IH. simpl in E. lia.
Qed.

(** C6.  The formatter returns the line [[], then one line per record, in
    order, holding the record's JSON text followed by a comma except on the
    last record, then the line []]; on no records it returns exactly the
    two lines [[] and []]. *)
Theorem jsonFormatter_layout :
  jsonFormatter [] = ["["; "]"]
  /\ (forall records last,
         jsonFormatter (records ++ [last])
         = ["["]
           ++ map (fun o => (JSON_stringify (Obj o) ++ ",")%string) records
           ++ [JSON_stringify (Obj last)]
           ++ ["]"])
  /\ jsonFormatter [[("a", Leaf (SNum 1))]; [("b", Leaf (SNum 2))]]
     = ["[";
        String "{" (String quoteMark (String "a" (String quoteMark ":1},")));
        String "{" (String quoteMark (String "b" (String quoteMark ":2}")));
        "]"].
Proof.
  split; [reflexivity|]. split; [|reflexivity].
  intros records last. unfold jsonFormatter, mapi.
  apply f_equal. rewrite (app_assoc _ _ ["]"]).
  apply (f_equal (fun lines => lines ++ ["]"])).
  apply mapiFrom_commas. rewrite length_app. reflexivity.
Qed.

(** *** The per-table columns of [updateSheet] *)

(** What [updateSheet] pushes for one table. *)
Lemma tables_mapOutcome m (formatter : list object -> list string) tables :
  forall acc,
    forLoop (List.length tables) 0
      (fun i acc =>
         match nth_error tables i with
         | Some t =>
             if isValid t then
               tableArray <- buildObject m (body t) (attrRow t) ;;
               Returned (acc ++ [formatter tableArray])
             else Returned (acc ++ [[]])
         | None => Threw
         end) acc
    = cols <- mapOutcome
                (fun t =>
                   if isValid t then
                     tableArray <- buildObject m (body t) (attrRow t) ;;
                     Returned (formatter tableArray)
                   else Returned [])
                tables ;;
      Returned (acc ++ cols).
Proof.
  induction tables as [|t tables IH]; intros acc.
  - simpl. now rewrite app_nil_r.
  - cbn [List.length forLoop mapOutcome nth_error].
    assert (Rest : forall acc',
               forLoop (List.length tables) 1
                 (fun i acc =>
                    match nth_error (t :: tables) i with
                    | Some t =>
                        if isValid t then
                          tableArray <- buildObject m (body t) (attrRow t) ;;
                          Returned (acc ++ [formatter tableArray])
                        else Returned (acc ++ [[]])
                    | None => Threw
                    end) acc'
               = cols <- mapOutcome
                           (fun t =>
                              if isValid t then
                                tableArray <- buildObject m (body t) (attrRow t) ;;
                                Returned (formatter tableArray)
                              else Returned [])
                           tables ;;
                 Returned (acc' ++ cols)).
    { intros acc'. rewrite forLoop_shift. cbn [nth_error]. apply IH. }
    destruct (isValid t).
    + rewrite !bind_assoc. apply bind_ext. intros recs. cbn [bind].
      rewrite Rest, bind_assoc. apply bind_ext. intros cols. simpl.
      now rewrite <- app_assoc.
    + cbn [bind]. rewrite Rest, bind_assoc. apply bind_ext. intros cols. simpl.
      now rewrite <- app_assoc.
Qed.

Lemma jsonValues_mapOutcome m (formatter : list object -> list string) tables :
  jsonValues m formatter tables
  = mapOutcome
      (fun t =>
         if isValid t then
           tableArray <- buildObject m (body t) (attrRow t) ;;
           Returned (formatter tableArray)
         else Returned [])
      tables.
Proof.
  unfold jsonValues. rewrite tables_mapOutcome. simpl. apply bind_Returned_r.
Qed.

Lemma length_mapiFrom {A B : Type} (f : A -> nat -> B) l :
  forall i, List.length (mapiFrom i f l) = List.length l.
Proof. induction l as [|x l IH]; intros i; simpl; [reflexivity|]. now rewrite IH. Qed.

(** The grid that line 164 writes has as many rows as the first table has
    lines, whatever the other tables hold. *)
Remark transpose_rows_of_first_column {T : Type} (a0 : list T) rest :
  exists grid, transpose (a0 :: rest) = Returned grid
               /\ List.length grid = List.length a0.
Proof.
  unfold transpose, mapi. eexists. split; [reflexivity|]. apply length_mapiFrom.
Qed.

(** With an invalid table first in the batch, the range of JSON cells is
    sized for the longest column and is assigned a grid of no rows. *)
Remark updateSheet_invalid_table_first :
  updateSheet Sloppy
    (fetchAllTables
       [mkSheetTable "Orders" (Some ["bad key"; ""]) [[SNum 1; SNum 2]];
        mkSheetTable "Customers" (Some ["id"]) [[SNum 7]]])
    jsonFormatter
  = Returned {| metadata := (["Orders"; "Customers"], [false; true], [0; 1]);
                jsonRangeRows := 3;
                jsonRangeColumns := 2;
                jsonRangeValues := [] |}.
Proof. reflexivity. Qed.

(** C8, as stated, fails on its example: the headers [1bad], [""] form a
    valid header row, a segment may begin with a digit; the table is reported
    valid, with its rows counted and its records written. *)
Lemma orders_with_1bad_is_valid :
  let tables :=
    fetchAllTables [mkSheetTable "Orders" (Some ["1bad"; ""]) [[SNum 1; SNum 2]]] in
  metadataValues tables = (["Orders"], [true], [1])
  /\ jsonValues Sloppy jsonFormatter tables
     = Returned [["["; JSON_stringify (Obj [("1bad", Leaf (SNum 1))]); "]"]].
Proof. split; reflexivity. Qed.

(** C8, amended.  In the metadata rows and the columns of lines that
    [updateSheet] assembles, a table whose flag is [false] is reported with
    its name, the flag [false], the row count [0] and no line; the column of
    a valid table is the formatter's output on its records; and a table
    whose flag is [false] never makes the assembly fail.  So it is for
    [Orders] under the invalid headers [bad key], [""] next to a valid
    table. *)
Theorem invalid_table_is_flagged_not_fatal :
  (forall m (formatter : list object -> list string) tables,
      (forall i t,
          nth_error tables i = Some t -> isValid t = false ->
          nth_error (fst (fst (metadataValues tables))) i = Some (name t)
          /\ nth_error (snd (fst (metadataValues tables))) i = Some false
          /\ nth_error (snd (metadataValues tables)) i = Some 0)
      /\ (forall cols,
             jsonValues m formatter tables = Returned cols ->
             Forall2 (fun t col =>
                        if isValid t
                        then exists recs,
                            buildObject m (body t) (attrRow t) = Returned recs
                            /\ col = formatter recs
                        else col = [])
                     tables cols)
      /\ ((forall t, In t tables -> isValid t = true ->
                     exists recs, buildObject m (body t) (attrRow t) = Returned recs) ->
          exists cols, jsonValues m formatter tables = Returned cols))
  /\ (let tables :=
        fetchAllTables
          [mkSheetTable "Orders" (Some ["bad key"; ""]) [[SNum 1; SNum 2]];
           mkSheetTable "Customers" (Some ["id"; "name"]) [[SNum 7; SStr "Ann"]]] in
      metadataValues tables = (["Orders"; "Customers"], [false; true], [0; 1])
      /\ forall m,
          jsonValues m jsonFormatter tables
          = Returned [[];
                      ["[";
                       JSON_stringify (Obj [("id", Leaf (SNum 7));
                                            ("name", Leaf (SStr "Ann"))]);
                       "]"]]).
Proof.
  split.
  - intros m formatter tables. split; [|split].
    + intros i t E F. unfold metadataValues. cbn [fst snd].
      rewrite !nth_error_map, E. cbn. now rewrite F.
    + intros cols E. rewrite jsonValues_mapOutcome in E.
      apply mapOutcome_Returned in E.
      induction E as [|t col tables cols Et E IH]; constructor; [|exact IH].
      destruct (isValid t).
      * apply bind_inv in Et. destruct Et as (recs & Er & Ec).
        exists recs. split; [exact Er|]. now injection Ec as <-.
      * now injection Et as <-.
    + intros V. rewrite jsonValues_mapOutcome. apply mapOutcome_total.
      intros t I. destruct (isValid t) eqn:F.
      * destruct (V t I F) as (recs & ->). simpl. eauto.
      * eauto.
  - split; [reflexivity|]. intros []; reflexivity.
Qed.

Lemma invalid_table_is_flagged_not_fatal_witness :
  let tables := [mkTableDetail "Orders" ["bad key"; ""] false [];
                 mkTableDetail "Customers" ["id"] true [[SNum 7]]] in
  let lines := ["["; JSON_stringify (Obj [("id", Leaf (SNum 7))]); "]"] in
  (nth_error (fst (fst (metadataValues tables))) 0 = Some "Orders"
   /\ nth_error (snd (fst (metadataValues tables))) 0 = Some false
   /\ nth_error (snd (metadataValues tables)) 0 = Some 0)
  /\ Forall2 (fun t col =>
                if isValid t
                then exists recs,
                    buildObject Sloppy (body t) (attrRow t) = Returned recs
                    /\ col = jsonFormatter recs
                else col = [])
             tables [[]; lines]
  /\ exists cols, jsonValues Sloppy jsonFormatter tables = Returned cols.
Proof.
  intros tables lines.
  destruct (proj1 invalid_table_is_flagged_not_fatal Sloppy jsonFormatter tables)
    as (Meta & Cols & Total).
  split; [exact (Meta 0 _ eq_refl eq_refl)|].
  split; [exact (Cols [[]; lines] eq_refl)|].
  apply Total.
  intros t [<-|[<-|[]]] F; [discriminate|].
  simpl. eexists. reflexivity.
Defined.

(** ** Further properties of the builder *)


Lemma mapOutcome_app {A B : Type} (f : A -> outcome B) l1 l2 :
  mapOutcome f (l1 ++ l2)
  = r1 <- mapOutcome f l1 ;; r2 <- mapOutcome f l2 ;; Returned (r1 ++ r2).
Proof.
  induction l1 as [|x l1 IH]; simpl.
  - now rewrite bind_Returned_r.
  - rewrite bind_assoc. apply bind_ext. intros y. rewrite IH, !bind_assoc.
    apply bind_ext. intros r1. simpl. rewrite bind_assoc. now apply bind_ext.
Qed.

(** The unfolding of [insertPath] on a path of two segments or more. *)
Lemma insertPath_cons2 m k k' rest cell o :
  insertPath m (k :: k' :: rest) cell o
  = match getOwn k o with
    | Some (Obj p) =>
        p' <- insertPath m (k' :: rest) cell p ;; Returned (setOwn k (Obj p') o)
    | Some (Leaf s) =>
        if truthyScalar s then _ <- primAssign m s (k' :: rest) ;; Returned o
        else if String.eqb k "__proto__" then Escaped
        else p' <- insertPath m (k' :: rest) cell [] ;; Returned (setOwn k (Obj p') o)
    | None =>
        if objectPrototypeHas k then Escaped
        else p' <- insertPath m (k' :: rest) cell [] ;; Returned (setOwn k (Obj p') o)
    end.
Proof. reflexivity. Qed.






(** X2.  Rows are converted independently and in order: the records of a
    block made of two blocks are the records of the first followed by the
    records of the second, and the call fails where the first failing block
    fails. *)
Theorem buildObject_app m values1 values2 keys :
  buildObject m (values1 ++ values2) keys
  = r1 <- buildObject m values1 keys ;;
    r2 <- buildObject m values2 keys ;;
    Returned (r1 ++ r2).
Proof. rewrite !buildObject_mapOutcome. apply mapOutcome_app. Qed.

Lemma setOwn_fresh k v o : getOwn k o = None -> setOwn k v o = o ++ [(k, v)].
Proof.
  induction o as [|[j w] rest IH]; simpl; intros G.
  - reflexivity.
  - destruct (String.eqb k j); [discriminate|]. now rewrite IH.
Qed.

Lemma insertRow_flat m keys :
  forall cols o,
    NoDup keys ->
    (forall k, In k keys ->
               dotFree k = true /\ truthyString k = true
               /\ String.eqb k "__proto__" = false /\ getOwn k o = None) ->
    insertRow m keys cols o = Returned (o ++ combine keys (map Leaf cols)).
Proof.
  induction keys as [|attr keys IH]; intros cols o N H.
  - simpl. now rewrite app_nil_r.
  - destruct cols as [|cell cols]; [simpl; now rewrite app_nil_r|].
    destruct (H attr (or_introl eq_refl)) as (D & T & P & G).
    cbn [insertRow map combine]. rewrite T, (split_dotFree _ D). simpl. rewrite P.
    cbn [bind]. inversion N as [|? ? NI N']; subst.
    rewrite (setOwn_fresh _ _ _ G), IH; [now rewrite <- app_assoc|exact N'|].
    intros k I. destruct (H k (or_intror I)) as (Dk & Tk & Pk & Gk).
    repeat split; auto.
    rewrite <- (setOwn_fresh _ _ _ G), getOwn_setOwn_other; [exact Gk|].
    apply String.eqb_neq. intros ->. contradiction.
Qed.

(** X3.  A header row of distinct names without dots (none of them empty
    or [__proto__]) gives the flat record that pairs each name with the cell
    below it, in column order, over the columns that both the header row and
    the data row have. *)
Theorem flat_headers_pair_names_with_cells m keys cols :
  NoDup keys ->
  forallb (fun k => dotFree k && truthyString k && negb (String.eqb k "__proto__")) keys
  = true ->
  buildRow m keys cols = Returned (combine keys (map Leaf cols)).
Proof.
  intros N F. rewrite buildRow_insertRow.
  rewrite insertRow_flat; [reflexivity|exact N|].
  intros k I. rewrite forallb_forall in F. specialize (F k I).
  apply andb_true_iff in F. destruct F as [F P].
  apply andb_true_iff in F. destruct F as [D T].
  apply negb_true_iff in P. auto.
Qed.

Lemma flat_headers_pair_names_with_cells_witness :
  buildRow Strict ["id"; "constructor"; "name"] [SNum 1; SBool true]
  = Returned [("id", Leaf (SNum 1)); ("constructor", Leaf (SBool true))].
Proof.
  apply (flat_headers_pair_names_with_cells Strict ["id"; "constructor"; "name"]
           [SNum 1; SBool true]).
  - repeat constructor; simpl; intuition discriminate.
  - reflexivity.
Defined.

(** *** What one assignment does to the record *)

Lemma valueAt_setOwn_Obj k p o rest :
  rest <> [] -> valueAt (k :: rest) (setOwn k (Obj p) o) = valueAt rest p.
Proof.
  intros N. simpl. rewrite getOwn_setOwn_same. destruct rest; [congruence|reflexivity].
Qed.

(** An assignment that returns has stored the cell under its path, unless
    a scalar sat on the way, in which case the record is as it was. *)
Lemma insertPath_stored m segs cell :
  segs <> [] ->
  forall o o',
    insertPath m segs cell o = Returned o' ->
    valueAt segs o' = Some (Leaf cell)
    \/ (m = Sloppy /\ o' = o
        /\ exists q, strictPrefix q segs = true /\ leafAt q o = true).
Proof.
  induction segs as [|k rest IH]; intros N o o' E; [congruence|].
  destruct rest as [|k' rest].
  - simpl in E. destruct (String.eqb k "__proto__"); [discriminate|].
    injection E as <-. left. simpl. now rewrite getOwn_setOwn_same.
  - assert (N' : k' :: rest <> []) by discriminate.
    rewrite insertPath_cons2 in E.
    assert (Fresh : forall p,
               (forall q, leafAt q p = true -> getOwn k o = Some (Obj p)) ->
               (p' <- insertPath m (k' :: rest) cell p ;; Returned (setOwn k (Obj p') o))
               = Returned o' ->
               valueAt (k :: k' :: rest) o' = Some (Leaf cell)
               \/ (m = Sloppy /\ o' = o
                   /\ exists q, strictPrefix q (k :: k' :: rest) = true
                                /\ leafAt q o = true)).
    { intros p Up Ep. apply bind_inv in Ep. destruct Ep as (p' & E1 & Eo).
      injection Eo as <-. destruct (IH N' _ _ E1) as [S|(-> & -> & q & Pq & Lq)].
      - left. now rewrite valueAt_setOwn_Obj.
      - right. pose proof (Up q Lq) as G. split; [reflexivity|]. split.
        + now apply setOwn_same.
        + exists (k :: q). split; [simpl; now rewrite String.eqb_refl|].
          simpl. now rewrite G. }
    destruct (getOwn k o) as [[s|p]|] eqn:G.
    + destruct (truthyScalar s) eqn:T.
      * apply bind_inv in E. destruct E as (u & Ep & Eo). injection Eo as <-.
        right. split; [|split; [reflexivity|]].
        -- unfold primAssign in Ep. destruct s; try discriminate;
             match type of Ep with context [primitiveHas ?s ?k] =>
               destruct (primitiveHas s k) end; try discriminate;
             destruct m; try discriminate; reflexivity.
        -- exists [k]. split; [simpl; now rewrite String.eqb_refl|].
           simpl. now rewrite G.
      * destruct (String.eqb k "__proto__"); [discriminate|].
        apply (Fresh []); [intros [|a q]; discriminate|exact E].
    + apply (Fresh p); [|exact E]. intros q Lq. reflexivity.
    + destruct (objectPrototypeHas k); [discriminate|].
      apply (Fresh []); [intros [|a q]; discriminate|exact E].
Qed.

Lemma freshName_spec k :
  freshName k = true ->
  objectPrototypeHas k = false
  /\ String.eqb k "__proto__" = false
  /\ forall s, primitiveHas s k = false.
Proof.
  unfold freshName. intros F. apply negb_true_iff in F.
  apply orb_false_iff in F. destruct F as [F D].
  apply orb_false_iff in F. destruct F as [F S].
  apply orb_false_iff in F. destruct F as [O N].
  split; [exact O|]. split.
  - apply plainName_not_proto. unfold plainName. now rewrite O.
  - intros s. unfold primitiveHas. rewrite O.
    destruct s; cbn [orb]; rewrite ?N, ?S, ?D; reflexivity.
Qed.

(** With fresh segments the walk never leaves the record for a built-in
    object. *)
Lemma insertPath_fresh_not_Escaped m segs cell :
  forallb freshName segs = true ->
  forall o, insertPath m segs cell o <> Escaped.
Proof.
  induction segs as [|k rest IH]; intros F o; [discriminate|].
  simpl in F. apply andb_true_iff in F. destruct F as [Fk F].
  destruct (freshName_spec _ Fk) as (O & P & H).
  destruct rest as [|k' rest].
  - simpl. rewrite P. discriminate.
  - rewrite insertPath_cons2.
    assert (Sub : forall p,
               (p' <- insertPath m (k' :: rest) cell p ;; Returned (setOwn k (Obj p') o))
               <> Escaped).
    { intros p. specialize (IH F p).
      destruct (insertPath m (k' :: rest) cell p); simpl; congruence. }
    destruct (getOwn k o) as [[s|p]|].
    + destruct (truthyScalar s); [|rewrite P; apply Sub].
      simpl in F. apply andb_true_iff in F. destruct F as [Fk' _].
      destruct (freshName_spec _ Fk') as (_ & _ & H').
      unfold primAssign. rewrite H'.
      destruct s; destruct m; destruct rest; simpl; discriminate.
    + apply Sub.
    + rewrite O. apply Sub.
Qed.

(** X4.  Take an attribute none of whose segments is a name that a built-in
    object supplies ([Object.prototype] or the wrapper of a primitive).  The
    assignment of lines 119-127 then stays within the record and the
    primitives it holds; if it returns, it has stored the cell under the
    attribute's key path, with one exception: in sloppy mode, when a scalar
    sits on a proper prefix of the path, the cell is dropped and the record
    is left as it was.  In strict mode a returned assignment has always
    stored the cell. *)
Theorem assignAttr_stores_or_drops m attr cell o :
  forallb freshName (split dot attr) = true ->
  assignAttr m attr cell o <> Escaped
  /\ forall o',
      assignAttr m attr cell o = Returned o' ->
      (valueAt (split dot attr) o' = Some (Leaf cell)
       \/ (m = Sloppy /\ o' = o
           /\ exists q, strictPrefix q (split dot attr) = true /\ leafAt q o = true))
      /\ (m = Strict -> valueAt (split dot attr) o' = Some (Leaf cell)).
Proof.
  rewrite assignAttr_insertPath. intros F.
  split; [now apply insertPath_fresh_not_Escaped|]. intros o' E.
  pose proof (insertPath_stored m _ cell (split_nonempty _ _) _ _ E) as S.
  split; [exact S|]. intros ->. destruct S as [S|(D & _)]; [exact S|discriminate].
Qed.

Lemma assignAttr_stores_or_drops_witness :
  assignAttr Strict "a.b" (SNum 1) [("a", Leaf (SNum 0))] <> Escaped
  /\ valueAt (split dot "a.b") [("a", Obj [("b", Leaf (SNum 1))])] = Some (Leaf (SNum 1)).
Proof.
  destruct (assignAttr_stores_or_drops Strict "a.b" (SNum 1) [("a", Leaf (SNum 0))] eq_refl)
    as [NotEscaped Stored].
  split; [exact NotEscaped|].
  exact (proj2 (Stored [("a", Obj [("b", Leaf (SNum 1))])] eq_refl) eq_refl).
Defined.

Lemma keys_setOwn k v o :
  map fst (setOwn k v o)
  = match getOwn k o with
    | Some _ => map fst o
    | None => map fst o ++ [k]
    end.
Proof.
  induction o as [|[j w] rest IH]; simpl.
  - reflexivity.
  - destruct (String.eqb k j) eqn:E; simpl; [reflexivity|].
    rewrite IH. now destruct (getOwn k rest).
Qed.

Lemma insertPath_frame m k rest cell o o' :
  insertPath m (k :: rest) cell o = Returned o' ->
  (forall j, String.eqb j k = false -> getOwn j o' = getOwn j o)
  /\ map fst o'
     = match getOwn k o with
       | Some _ => map fst o
       | None => map fst o ++ [k]
       end.
Proof.
  assert (Set_ : forall v, (forall j, String.eqb j k = false ->
                                   getOwn j (setOwn k v o) = getOwn j o)
                         /\ map fst (setOwn k v o)
                            = match getOwn k o with
                              | Some _ => map fst o
                              | None => map fst o ++ [k]
                              end).
  { intros v. split; [intros j N; now apply getOwn_setOwn_other|apply keys_setOwn]. }
  destruct rest as [|k' rest].
  - simpl. destruct (String.eqb k "__proto__"); [discriminate|].
    intros E. injection E as <-. apply Set_.
  - rewrite insertPath_cons2.
    assert (Sub : forall p,
               (p' <- insertPath m (k' :: rest) cell p ;; Returned (setOwn k (Obj p') o))
               = Returned o' ->
               (forall j, String.eqb j k = false -> getOwn j o' = getOwn j o)
               /\ map fst o'
                  = match getOwn k o with
                    | Some _ => map fst o
                    | None => map fst o ++ [k]
                    end).
    { intros p Ep. apply bind_inv in Ep. destruct Ep as (p' & _ & Eo).
      injection Eo as <-. apply Set_. }
    destruct (getOwn k o) as [[s|p]|] eqn:G.
    + destruct (truthyScalar s).
      * intros E. apply bind_inv in E. destruct E as (u & _ & Eo).
        injection Eo as <-. auto.
      * destruct (String.eqb k "__proto__"); [discriminate|]. apply Sub.
    + apply Sub.
    + destruct (objectPrototypeHas k); [discriminate|]. apply Sub.
Qed.

(** X5.  Take an attribute whose first segment is not a name that
    [Object.prototype] supplies.  An assignment of lines 119-127 that returns
    has touched, of the record's own properties, only the one named by that
    first segment: every other property keeps its value, the properties keep
    their order, and the first segment joins them at the end when the record
    did not have it. *)
Theorem assignAttr_frame m attr cell o o' :
  plainName (hd EmptyString (split dot attr)) = true ->
  assignAttr m attr cell o = Returned o' ->
  (forall j, j <> hd EmptyString (split dot attr) -> getOwn j o' = getOwn j o)
  /\ map fst o'
     = match getOwn (hd EmptyString (split dot attr)) o with
       | Some _ => map fst o
       | None => map fst o ++ [hd EmptyString (split dot attr)]
       end.
Proof.
  intros _. rewrite assignAttr_insertPath. pose proof (split_nonempty dot attr) as N.
  destruct (split dot attr) as [|k rest]; [congruence|]. simpl hd. intros E.
  destruct (insertPath_frame _ _ _ _ _ _ E) as [F K]. split; [|exact K].
  intros j D. apply F. now apply String.eqb_neq.
Qed.

Lemma assignAttr_frame_witness :
  (forall j, j <> hd EmptyString (split dot "b.c") ->
             getOwn j [("a", Leaf (SNum 1)); ("b", Obj [("c", Leaf (SNum 2))])]
             = getOwn j [("a", Leaf (SNum 1))])
  /\ map fst [("a", Leaf (SNum 1)); ("b", Obj [("c", Leaf (SNum 2))])]
     = match getOwn (hd EmptyString (split dot "b.c")) [("a", Leaf (SNum 1))] with
       | Some _ => map fst [("a", Leaf (SNum 1))]
       | None => map fst [("a", Leaf (SNum 1))] ++ [hd EmptyString (split dot "b.c")]
       end.
Proof.
  exact (assignAttr_frame Sloppy "b.c" (SNum 2) [("a", Leaf (SNum 1))]
           [("a", Leaf (SNum 1)); ("b", Obj [("c", Leaf (SNum 2))])] eq_refl eq_refl).
Defined.

Lemma insertRow_blank m keys :
  forallb (fun k => negb (truthyString k)) keys = true ->
  forall cols o, insertRow m keys cols o = Returned o.
Proof.
  induction keys as [|attr keys IH]; intros B cols o; [reflexivity|].
  simpl in B. apply andb_true_iff in B. destruct B as [Ba B].
  destruct cols as [|cell cols]; [reflexivity|].
  cbn [insertRow]. apply negb_true_iff in Ba. rewrite Ba. simpl. now apply IH.
Qed.

(** X6.  Under a header row without any non-empty entry (the empty row
    among them) no cell is read: the call returns one empty record per row,
    whatever the rows hold. *)
Theorem blank_headers_give_empty_records m values keys :
  forallb (fun k => negb (truthyString k)) keys = true ->
  buildObject m values keys = Returned (map (fun _ => []) values).
Proof.
  intros B. rewrite buildObject_mapOutcome.
  induction values as [|cols values IH]; simpl; [reflexivity|].
  now rewrite buildRow_insertRow, (insertRow_blank m keys B), IH.
Qed.

Lemma blank_headers_give_empty_records_witness :
  buildObject Strict [[SNum 1; SStr "x"]; []; [SBool true]] [""; ""]
  = Returned [[]; []; []].
Proof.
  exact (blank_headers_give_empty_records Strict
           [[SNum 1; SStr "x"]; []; [SBool true]] [""; ""] eq_refl).
Defined.

(** *** Separate key paths: every cell is found under its path *)

Lemma valueAt_nil q : valueAt q [] = None.
Proof. destruct q; reflexivity. Qed.

Lemma valueAt_cons k t o :
  t <> [] ->
  valueAt (k :: t) o
  = match getOwn k o with Some (Obj p) => valueAt t p | _ => None end.
Proof.
  intros N. simpl. destruct t as [|a t]; [congruence|].
  destruct (getOwn k o) as [[sc|p]|]; reflexivity.
Qed.

Lemma insertPath_valueAt_other m p2 cell :
  forall p1 o o',
    insertPath m p2 cell o = Returned o' ->
    comparable p1 p2 = false ->
    valueAt p1 o' = valueAt p1 o.
Proof.
  induction p2 as [|k t2 IH]; intros p1 o o' E C.
  - simpl in E. now injection E as <-.
  - destruct p1 as [|j t1]; [reflexivity|].
    destruct (String.eqb j k) eqn:J.
    + apply String.eqb_eq in J. subst j.
      unfold comparable in C. simpl in C. rewrite String.eqb_refl in C. simpl in C.
      apply orb_false_iff in C. destruct C as [C1 C2].
      assert (N1 : t1 <> []) by (intros ->; discriminate).
      destruct t2 as [|k' t2]; [destruct t1; discriminate|].
      assert (C : comparable t1 (k' :: t2) = false)
        by (unfold comparable; now rewrite C1, C2).
      rewrite insertPath_cons2 in E. rewrite !valueAt_cons by assumption.
      assert (Sub : forall p,
                 (p' <- insertPath m (k' :: t2) cell p ;; Returned (setOwn k (Obj p') o))
                 = Returned o' ->
                 match getOwn k o' with Some (Obj q) => valueAt t1 q | _ => None end
                 = valueAt t1 p).
      { intros p Ep. apply bind_inv in Ep. destruct Ep as (p' & E1 & Eo).
        injection Eo as <-. rewrite getOwn_setOwn_same. now apply IH. }
      destruct (getOwn k o) as [[sc|p]|] eqn:G.
      * destruct (truthyScalar sc).
        -- apply bind_inv in E. destruct E as (u & _ & Eo). injection Eo as <-.
           now rewrite G.
        -- destruct (String.eqb k "__proto__"); [discriminate|].
           now rewrite (Sub [] E), valueAt_nil.
      * now apply Sub.
      * destruct (objectPrototypeHas k); [discriminate|].
        now rewrite (Sub [] E), valueAt_nil.
    + destruct (insertPath_frame _ _ _ _ _ _ E) as [F _].
      simpl. now rewrite (F j J).
Qed.

Lemma strictPrefix_isPrefix q p : strictPrefix q p = true -> isPrefix q p = true.
Proof.
  revert p. induction q as [|a q IH]; intros [|b p]; simpl; try discriminate; auto.
  intros H. apply andb_true_iff in H. destruct H as [-> H]. simpl. auto.
Qed.

Lemma separate_not_strictPrefix seen p :
  forallb (fun q => negb (comparable q p)) seen = true ->
  forallb (fun q => negb (strictPrefix q p)) seen = true.
Proof.
  rewrite !forallb_forall. intros H q I. specialize (H q I).
  apply negb_true_iff in H. apply negb_true_iff.
  destruct (strictPrefix q p) eqn:S; [|reflexivity].
  unfold comparable in H. now rewrite (strictPrefix_isPrefix _ _ S) in H.
Qed.

Lemma insertRow_lookup m keys :
  forall cols seen o,
    separatePaths seen (usedPaths keys) = true ->
    leavesIn [] seen o ->
    exists o',
      insertRow m keys cols o = Returned o'
      /\ (forall q, In q seen -> valueAt q o' = valueAt q o)
      /\ (forall c attr cell,
             nth_error keys c = Some attr -> truthyString attr = true ->
             nth_error cols c = Some cell ->
             valueAt (split dot attr) o' = Some (Leaf cell)).
Proof.
  induction keys as [|attr keys IH]; intros cols seen o S L.
  - exists o. split; [reflexivity|]. split; [reflexivity|].
    intros [|c] ? ? ?; discriminate.
  - destruct cols as [|cell cols].
    { exists o. split; [reflexivity|]. split; [reflexivity|].
      intros [|c] ? ? _ _ ?; discriminate. }
    rewrite usedPaths_cons in S. cbn [insertRow].
    destruct (truthyString attr) eqn:T.
    + simpl in S. apply andb_true_iff in S. destruct S as [S S3].
      apply andb_true_iff in S. destruct S as [S1 S2].
      pose proof (separate_not_strictPrefix _ _ S2) as S2'.
      destruct (insertPath_collisionFree m cell (split dot attr) (split_nonempty _ _)
                  [] seen o S1 S2' L) as (o1 & E1 & L1).
      simpl in L1. rewrite E1. cbn [bind].
      destruct (IH cols _ o1 S3 L1) as (o' & E' & Keep & Found).
      exists o'. split; [exact E'|].
      assert (Stored : valueAt (split dot attr) o1 = Some (Leaf cell)).
      { destruct (insertPath_stored m _ cell (split_nonempty _ _) _ _ E1)
          as [St|(_ & _ & q & Pq & Lq)]; [exact St|].
        rewrite forallb_forall in S2'. specialize (S2' q (L q Lq)).
        now rewrite Pq in S2'. }
      split.
      * intros q I. rewrite (Keep q (or_intror I)).
        apply (insertPath_valueAt_other _ _ _ _ _ _ E1).
        rewrite forallb_forall in S2. apply negb_true_iff. now apply S2.
      * intros [|c] a v Ea Ta Ev; simpl in Ea, Ev.
        -- injection Ea as <-. injection Ev as <-.
           now rewrite (Keep _ (or_introl eq_refl)).
        -- now apply (Found c).
    + cbn [bind]. destruct (IH cols _ o S L) as (o' & E' & Keep & Found).
      exists o'. split; [exact E'|]. split; [exact Keep|].
      intros [|c] a v Ea Ta Ev; simpl in Ea, Ev.
      * injection Ea as <-. congruence.
      * now apply (Found c).
Qed.

Lemma Forall2_nth_error {A B : Type} (R : A -> B -> Prop) l l' :
  Forall2 R l l' ->
  forall i x y, nth_error l i = Some x -> nth_error l' i = Some y -> R x y.
Proof.
  induction 1 as [|a b l l' Rab F IH]; intros [|i] x y Ex Ey; simpl in *;
    try discriminate.
  - now injection Ex as <-; injection Ey as <-.
  - eauto.
Qed.







(** X7.  When the key paths of the used columns are separate (pairwise
    distinct, none extending another, no segment a name of
    [Object.prototype]), the call returns, and in the record of every row
    every used column's cell is found, as a scalar, under the key path of the
    column's header: no cell is lost or overwritten. *)
Theorem separate_paths_keep_every_cell m values keys :
  separatePaths [] (usedPaths keys) = true ->
  exists rs,
    buildObject m values keys = Returned rs
    /\ forall r cols o c attr cell,
        nth_error values r = Some cols -> nth_error rs r = Some o ->
        nth_error keys c = Some attr -> truthyString attr = true ->
        nth_error cols c = Some cell ->
        valueAt (split dot attr) o = Some (Leaf cell).
Proof.
  intros S.
  assert (Row : forall cols, exists o,
               buildRow m keys cols = Returned o
               /\ forall c attr cell,
                   nth_error keys c = Some attr -> truthyString attr = true ->
                   nth_error cols c = Some cell ->
                   valueAt (split dot attr) o = Some (Leaf cell)).
  { intros cols. rewrite buildRow_insertRow.
    destruct (insertRow_lookup m keys cols [] [] S (leavesIn_nil _ _))
      as (o & E & _ & Found).
    eauto. }
  destruct (mapOutcome_total (buildRow m keys) values) as (rs & E).
  { intros cols _. destruct (Row cols) as (o & Eo & _). eauto. }
  exists rs. rewrite buildObject_mapOutcome. split; [exact E|].
  intros r cols o c attr cell Ev Er Ek T Ec.
  apply mapOutcome_Returned in E.
  pose proof (Forall2_nth_error _ _ _ E r cols o Ev Er) as Eo.
  destruct (Row cols) as (o0 & Eo0 & Found).
  rewrite Eo in Eo0. injection Eo0 as <-. now apply (Found c).
Qed.

Lemma separate_paths_keep_every_cell_witness :
  exists rs,
    buildObject Sloppy [[SNum 1; SStr "skip"; SStr "Paris"; SNum 0]]
                ["id"; ""; "addr.city"; "addr.geo.lat"] = Returned rs
    /\ forall r cols o c attr cell,
        nth_error [[SNum 1; SStr "skip"; SStr "Paris"; SNum 0]] r = Some cols ->
        nth_error rs r = Some o ->
        nth_error ["id"; ""; "addr.city"; "addr.geo.lat"] c = Some attr ->
        truthyString attr = true ->
        nth_error cols c = Some cell ->
        valueAt (split dot attr) o = Some (Leaf cell).
Proof.
  exact (separate_paths_keep_every_cell Sloppy
           [[SNum 1; SStr "skip"; SStr "Paris"; SNum 0]]
           ["id"; ""; "addr.city"; "addr.geo.lat"] eq_refl).
Defined.

(** ** Further properties of the validator *)

Lemma join_String c seg segs :
  join "." (String c seg :: segs) = String c (join "." (seg :: segs)).
Proof. destruct segs; reflexivity. Qed.

Lemma join_split s : join "." (split dot s) = s.
Proof.
  induction s as [|c s IH]; [reflexivity|]. simpl.
  destruct (Ascii.eqb c dot) eqn:E.
  - apply Ascii.eqb_eq in E. subst c.
    destruct (split dot s) as [|seg segs] eqn:S; [now apply split_nonempty in S|].
    change (join "." ("" :: seg :: segs)) with (String dot (join "." (seg :: segs))).
    now rewrite IH.
  - destruct (split dot s) as [|seg segs] eqn:S; [now apply split_nonempty in S|].
    now rewrite join_String, IH.
Qed.

Lemma split_join segs :
  segs <> [] -> Forall (fun seg => dotFree seg = true) segs ->
  split dot (join "." segs) = segs.
Proof.
  intros N F. induction F as [|seg segs D F IH]; [congruence|].
  destruct segs as [|seg' segs].
  - simpl. now apply split_dotFree.
  - change (join "." (seg :: seg' :: segs))
      with (seg ++ String dot (join "." (seg' :: segs)))%string.
    rewrite (split_dotFree_append _ _ D), IH; [reflexivity|discriminate].
Qed.

Lemma isValidAttr_split s :
  isValidAttr s = forallb isSegment (split dot s).
Proof.
  destruct (forallb isSegment (split dot s)) eqn:F.
  - apply isValidAttr_iff. exists (split dot s).
    split; [apply split_nonempty|]. split; [|symmetry; apply join_split].
    apply Forall_forall. now apply forallb_forall.
  - destruct (isValidAttr s) eqn:V; [|reflexivity].
    apply isValidAttr_iff in V. destruct V as (segs & N & A & ->).
    rewrite split_join in F; [|exact N|].
    + rewrite <- F. symmetry. apply forallb_forall. now apply Forall_forall.
    + apply Forall_forall. intros seg I. apply isSegment_dotFree.
      now apply (proj1 (Forall_forall _ _) A).
Qed.

(** X8.  A header passes [isValidAttr] exactly when every key that
    [attr.split('.')] yields for it is a non-empty run of word
    characters. *)
Theorem isValidAttr_checks_the_split_keys s :
  isValidAttr s = forallb isSegment (split dot s).
Proof. apply isValidAttr_split. Qed.

(** X9.  Under a valid header row the builder has work to do and only
    touches well-formed keys: some column is used, and every key path of a
    used column is made of non-empty runs of word characters. *)
Theorem valid_row_uses_wellformed_keys attrRow :
  validAttrRow attrRow = true ->
  usedPaths attrRow <> []
  /\ Forall (fun path => forallb isSegment path = true) (usedPaths attrRow).
Proof.
  unfold validAttrRow, usedPaths. intros V. apply andb_true_iff in V.
  destruct V as [A E]. rewrite forallb_forall in A. apply existsb_exists in E.
  destruct E as (h & I & Vh). split.
  - intros Nil. apply map_eq_nil in Nil.
    assert (In h (filter truthyString attrRow)) as J.
    { apply filter_In. split; [exact I|]. destruct h; [discriminate|reflexivity]. }
    now rewrite Nil in J.
  - apply Forall_forall. intros path P. apply in_map_iff in P.
    destruct P as (attr & <- & J). apply filter_In in J. destruct J as [J T].
    rewrite <- isValidAttr_split.
    specialize (A attr J). rewrite T in A. exact A.
Qed.

Lemma valid_row_uses_wellformed_keys_witness :
  usedPaths [""; "id"; "addr.city"] <> []
  /\ Forall (fun path => forallb isSegment path = true) (usedPaths [""; "id"; "addr.city"]).
Proof. exact (valid_row_uses_wellformed_keys [""; "id"; "addr.city"] eq_refl). Defined.

(** X10.  Blank header entries do not count for the validity flag: a row
    and the row without its empty entries get the same flag. *)
Theorem validity_ignores_blank_headers attrRow :
  validAttrRow (filter truthyString attrRow) = validAttrRow attrRow.
Proof.
  unfold validAttrRow. f_equal.
  - induction attrRow as [|attr row IH]; [reflexivity|]. simpl.
    destruct (truthyString attr) eqn:T; simpl; now rewrite ?T, IH.
  - induction attrRow as [|attr row IH]; [reflexivity|]. simpl.
    destruct (truthyString attr) eqn:T; simpl; rewrite IH; [reflexivity|].
    destruct attr; [reflexivity|discriminate].
Qed.

(** ** Further properties of the formatter and of the sheet *)

Lemma jsonFormatter_snoc records last :
  jsonFormatter (records ++ [last])
  = ["["]
    ++ map (fun o => (JSON_stringify (Obj o) ++ ",")%string) records
    ++ [JSON_stringify (Obj last)]
    ++ ["]"].
Proof.
  unfold jsonFormatter, mapi. apply f_equal. rewrite (app_assoc _ _ ["]"]).
  apply (f_equal (fun lines => lines ++ ["]"])).
  apply mapiFrom_commas. rewrite length_app. reflexivity.
Qed.

Lemma join_empty_cons x l : join "" (x :: l) = (x ++ join "" l)%string.
Proof. destruct l; simpl; [now rewrite append_nil_r|reflexivity]. Qed.

Lemma join_empty_app l1 l2 : join "" (l1 ++ l2) = (join "" l1 ++ join "" l2)%string.
Proof.
  induction l1 as [|x l1 IH]; [reflexivity|].
  cbn [app]. now rewrite !join_empty_cons, IH, append_assoc.
Qed.

Lemma join_comma_snoc (text : object -> string) records last :
  join "," (map text (records ++ [last]))
  = (join "" (map (fun o => (text o ++ ",")%string) records) ++ text last)%string.
Proof.
  induction records as [|r records IH]; [reflexivity|].
  cbn [app map]. rewrite join_empty_cons, append_assoc, <- IH, append_assoc.
  destruct records; reflexivity.
Qed.

Lemma join_bracketed (text : object -> string) records last :
  join "" (["["] ++ map (fun o => (text o ++ ",")%string) records ++ [text last] ++ ["]"])
  = ("[" ++ join "," (map text (records ++ [last])) ++ "]")%string.
Proof.
  rewrite join_comma_snoc. cbn [app]. rewrite join_empty_cons, !join_empty_app.
  cbn [join]. now rewrite !append_assoc.
Qed.

(** X11.  Read one after the other, the lines of the formatter spell the
    compact JSON text of the whole array: the opening bracket, the records'
    texts separated by commas, the closing bracket. *)
Theorem jsonFormatter_lines_spell_the_array data :
  join "" (jsonFormatter data)
  = ("[" ++ join "," (map (fun o => JSON_stringify (Obj o)) data) ++ "]")%string.
Proof.
  destruct data as [|o data]; [reflexivity|].
  destruct (@exists_last _ (o :: data)) as (records & last & ->); [discriminate|].
  rewrite jsonFormatter_snoc.
  apply (join_bracketed (fun o => JSON_stringify (Obj o))).
Qed.

Lemma jsonFormatter_length data : List.length (jsonFormatter data) = List.length data + 2.
Proof.
  unfold jsonFormatter, mapi. rewrite !length_app, length_mapiFrom. simpl.
  rewrite Nat.add_1_r, (Nat.add_comm _ 2). reflexivity.
Qed.

Lemma mapOutcome_length {A B : Type} (f : A -> outcome B) l rs :
  mapOutcome f l = Returned rs -> List.length rs = List.length l.
Proof.
  intros E. apply mapOutcome_Returned in E. symmetry.
  now apply Forall2_length with (1 := E).
Qed.

(** X12.  The column of lines of a valid table is two lines longer than
    the row count that the metadata report for it: one line per row of the
    table's body, between the two brackets. *)
Theorem valid_table_has_rows_plus_two_lines m tables cols i t col :
  jsonValues m jsonFormatter tables = Returned cols ->
  nth_error tables i = Some t -> isValid t = true ->
  nth_error cols i = Some col ->
  nth_error (snd (metadataValues tables)) i = Some (List.length (body t))
  /\ List.length col = List.length (body t) + 2.
Proof.
  intros E Et V Ec. split.
  - unfold metadataValues. cbn [snd]. rewrite nth_error_map, Et. cbn. now rewrite V.
  - rewrite jsonValues_mapOutcome in E. apply mapOutcome_Returned in E.
    pose proof (Forall2_nth_error _ _ _ E i t col Et Ec) as R. cbn beta in R.
    rewrite V in R. apply bind_inv in R. destruct R as (recs & Er & Eq).
    injection Eq as <-. rewrite jsonFormatter_length.
    apply buildObject_length in Er. destruct Er as [-> _]. reflexivity.
Qed.

Lemma valid_table_has_rows_plus_two_lines_witness :
  nth_error (snd (metadataValues [mkTableDetail "T" ["id"] true [[SNum 1]; [SNum 2]]])) 0
  = Some (List.length [[SNum 1]; [SNum 2]])
  /\ List.length ["["; (JSON_stringify (Obj [("id", Leaf (SNum 1))]) ++ ",")%string;
                  JSON_stringify (Obj [("id", Leaf (SNum 2))]); "]"]
     = List.length [[SNum 1]; [SNum 2]] + 2.
Proof.
  exact (valid_table_has_rows_plus_two_lines Sloppy
           [mkTableDetail "T" ["id"] true [[SNum 1]; [SNum 2]]] _ 0 _ _
           eq_refl eq_refl eq_refl eq_refl).
Defined.

Lemma nth_error_mapiFrom {A B : Type} (f : A -> nat -> B) l :
  forall i c,
    nth_error (mapiFrom i f l) c
    = match nth_error l c with
      | Some x => Some (f x (i + c))
      | None => None
      end.
Proof.
  induction l as [|x l IH]; intros i [|c]; simpl; try reflexivity.
  - now rewrite Nat.add_0_r.
  - rewrite IH. now rewrite Nat.add_succ_r.
Qed.

Lemma Forall_mapiFrom {A B : Type} (P : B -> Prop) (f : A -> nat -> B) l :
  (forall x i, P (f x i)) -> forall i, Forall P (mapiFrom i f l).
Proof. intros H. induction l as [|x l IH]; intros i; simpl; constructor; auto. Qed.

Lemma transpose_rows_and_width {T : Type} (a0 : list T) rest grid :
  transpose (a0 :: rest) = Returned grid ->
  List.length grid = List.length a0
  /\ Forall (fun row => List.length row = S (List.length rest)) grid.
Proof.
  unfold transpose, mapi. intros E. injection E as <-. split; [apply length_mapiFrom|].
  apply Forall_mapiFrom. intros _ c. simpl. now rewrite length_map.
Qed.

(** X13.  [transpose] takes its row count from the first column alone.  The
    line at position [c] of column [i] lands in row [c] of the grid, at
    place [i], when the first column has a line at position [c]; when it
    has none, the line is in no row of the grid.  Every row of the grid has
    one entry per column. *)
Theorem transpose_follows_first_column {T : Type} (a0 : list T) rest grid :
  transpose (a0 :: rest) = Returned grid ->
  List.length grid = List.length a0
  /\ Forall (fun row => List.length row = S (List.length rest)) grid
  /\ forall i col c line,
      nth_error (a0 :: rest) i = Some col -> nth_error col c = Some line ->
      (c < List.length a0 ->
       exists row, nth_error grid c = Some row /\ nth_error row i = Some (Some line))
      /\ (List.length a0 <= c -> nth_error grid c = None).
Proof.
  unfold transpose, mapi. intros E. injection E as <-. split; [apply length_mapiFrom|].
  split.
  - apply Forall_mapiFrom. intros _ c. simpl. now rewrite length_map.
  - intros i col c line Ei Ec. rewrite nth_error_mapiFrom. split.
    + intros L. destruct (nth_error a0 c) as [x|] eqn:E0.
      * eexists. split; [reflexivity|]. cbn [Nat.add map].
        destruct i as [|i]; simpl in Ei |- *.
        -- injection Ei as ->. now rewrite Ec.
        -- rewrite nth_error_map, Ei. simpl. now rewrite Ec.
      * apply nth_error_None in E0. lia.
    + intros L. apply nth_error_None in L. now rewrite L.
Qed.

Lemma transpose_follows_first_column_witness :
  List.length [[Some "["; Some "["]; [Some "]"; Some "{}"]] = List.length ["["; "]"]
  /\ Forall (fun row => List.length row = S (List.length [["["; "{}"; "]"]]))
            [[Some "["; Some "["]; [Some "]"; Some "{}"]]
  /\ forall i col c line,
      nth_error (["["; "]"] :: [["["; "{}"; "]"]]) i = Some col ->
      nth_error col c = Some line ->
      (c < List.length ["["; "]"] ->
       exists row, nth_error [[Some "["; Some "["]; [Some "]"; Some "{}"]] c = Some row
                   /\ nth_error row i = Some (Some line))
      /\ (List.length ["["; "]"] <= c ->
          nth_error [[Some "["; Some "["]; [Some "]"; Some "{}"]] c = None).
Proof.
  exact (transpose_follows_first_column ["["; "]"] [["["; "{}"; "]"]] _ eq_refl).
Defined.

Lemma fold_max_le a l :
  fold_right Nat.max 0 l <= a <-> Forall (fun x => x <= a) l.
Proof.
  induction l as [|x l IH]; simpl.
  - split; [constructor|lia].
  - rewrite Nat.max_lub_iff, IH. split.
    + intros [H1 H2]. now constructor.
    + intros H. inversion H; subst. auto.
Qed.

(** X14.  Whenever [updateSheet] returns, the batch has a first table; the
    range of JSON cells has one column per table and as many rows as the
    longest column of lines, while the grid assigned to it has as many rows
    as the first table has lines.  So the grid fills the range exactly when
    no table has more lines than the first one. *)
Theorem updateSheet_grid_against_range m tables formatter w :
  updateSheet m tables formatter = Returned w ->
  exists first rest,
    jsonValues m formatter tables = Returned (first :: rest)
    /\ S (List.length rest) = List.length tables
    /\ metadata w = metadataValues tables
    /\ jsonRangeColumns w = List.length tables
    /\ jsonRangeRows w
       = Nat.max (List.length first) (fold_right Nat.max 0 (map (@List.length string) rest))
    /\ List.length (jsonRangeValues w) = List.length first
    /\ Forall (fun row => List.length row = List.length tables) (jsonRangeValues w)
    /\ (List.length (jsonRangeValues w) = jsonRangeRows w
        <-> Forall (fun col => List.length col <= List.length first) rest).
Proof.
  unfold updateSheet. intros E.
  apply bind_inv in E. destruct E as (cols & Ec & E).
  apply bind_inv in E. destruct E as (grid & Eg & E). injection E as <-.
  destruct cols as [|first rest]; [discriminate|].
  exists first, rest. cbn [metadata jsonRangeColumns jsonRangeRows jsonRangeValues].
  assert (L : S (List.length rest) = List.length tables).
  { rewrite jsonValues_mapOutcome in Ec. now apply mapOutcome_length in Ec. }
  destruct (transpose_rows_and_width first rest grid Eg) as (Lg & Wg).
  split; [exact Ec|]. split; [exact L|]. split; [reflexivity|].
  split; [reflexivity|]. split; [reflexivity|]. split; [exact Lg|].
  split; [now rewrite <- L|].
  rewrite Lg. cbn [map fold_right].
  pose proof (fold_max_le (List.length first) (map (@List.length string) rest)) as M.
  rewrite Forall_map in M. rewrite <- M. lia.
Qed.

Lemma updateSheet_grid_against_range_witness :
  exists first rest,
    jsonValues Sloppy jsonFormatter
      [mkTableDetail "A" ["id"] true [[SNum 1]]; mkTableDetail "B" ["x y"] false []]
    = Returned (first :: rest)
    /\ S (List.length rest) = 2
    /\ List.length first = 3.
Proof.
  destruct (updateSheet_grid_against_range Sloppy
              [mkTableDetail "A" ["id"] true [[SNum 1]];
               mkTableDetail "B" ["x y"] false []]
              jsonFormatter _ eq_refl)
    as (first & rest & E & L & _ & _ & _ & G & _).
  exists first, rest. split; [exact E|]. split; [exact L|]. exact (eq_sym G).
Defined.

(** ** The command *)

(** X15.  What the handler shows is the thrown string or the text of the
    error's [debugInfo], never the error's [message] and never the fallback
    text: [typeof] gives a non-empty string, so the second branch is taken
    for every error object.  For an object without [debugInfo] the handler
    itself throws. *)
Theorem catchHandler_shows_debugInfo_only :
  (forall error msg,
      catchHandler error = Returned msg ->
      error = ThrownString msg \/ exists message, error = ThrownObject (Some msg) message)
  /\ (forall message, catchHandler (ThrownObject None message) = Threw).
Proof.
  split.
  - intros [s|[text|] message] msg E; simpl in E; try discriminate;
      injection E as <-; eauto.
  - reflexivity.
Qed.

Lemma catchHandler_shows_debugInfo_only_witness :
  ThrownObject (Some "[object Object]") (Some "The request failed.")
  = ThrownString "[object Object]"
  \/ exists message,
      ThrownObject (Some "[object Object]") (Some "The request failed.")
      = ThrownObject (Some "[object Object]") message.
Proof.
  exact (proj1 catchHandler_shows_debugInfo_only
           (ThrownObject (Some "[object Object]") (Some "The request failed."))
           "[object Object]" eq_refl).
Defined.

(** X16.  With Excel answering every request, the command never opens a
    dialog.  Either the sheet is written and completion is signalled, or the
    conversion throws a [TypeError], on which the handler throws in turn, so
    that the command ends without a dialog and without signalling
    completion.  A workbook without tables ends that way. *)
Theorem makeJsonSheet_completes_or_rejects m typeErrorMessage workbook :
  (forall run,
      makeJsonSheet m typeErrorMessage workbook = Returned run ->
      dialog run = None
      /\ exists w, sheet run = Some w
                   /\ updateSheet m (fetchAllTables workbook) jsonFormatter = Returned w)
  /\ (updateSheet m (fetchAllTables workbook) jsonFormatter = Threw ->
      makeJsonSheet m typeErrorMessage workbook = Threw)
  /\ makeJsonSheet m typeErrorMessage [] = Threw.
Proof.
  unfold makeJsonSheet. split; [|split].
  - intros run E.
    destruct (updateSheet m (fetchAllTables workbook) jsonFormatter) as [w| |];
      try discriminate.
    injection E as <-. simpl. eauto.
  - intros ->. reflexivity.
  - reflexivity.
Qed.

Lemma makeJsonSheet_completes_or_rejects_witness :
  (exists run,
      makeJsonSheet Sloppy "Cannot set properties of undefined"
        [mkSheetTable "T" (Some ["id"]) [[SNum 1]]] = Returned run
      /\ dialog run = None)
  /\ makeJsonSheet Sloppy "Cannot set properties of undefined"
       [mkSheetTable "T" (Some ["a"; "a.b.c"]) [[SNum 5; SNum 1]]] = Threw.
Proof.
  split.
  - eexists. split; [reflexivity|].
    exact (proj1 (proj1 (makeJsonSheet_completes_or_rejects Sloppy
                           "Cannot set properties of undefined"
                           [mkSheetTable "T" (Some ["id"]) [[SNum 1]]])
                        _ eq_refl)).
  - exact (proj1 (proj2 (makeJsonSheet_completes_or_rejects Sloppy
                           "Cannot set properties of undefined"
                           [mkSheetTable "T" (Some ["a"; "a.b.c"]) [[SNum 5; SNum 1]]]))
                 eq_refl).
Defined.

(** X17.  A table that starts on the first row of its sheet has no
    attribute row: it is flagged invalid, its row count is reported as [0]
    and its column of lines is empty, whatever its body holds. *)
Theorem table_without_row_above_is_not_converted m formatter workbook cols i t :
  jsonValues m formatter (fetchAllTables workbook) = Returned cols ->
  nth_error workbook i = Some t -> rowAbove t = None ->
  nth_error (fst (fst (metadataValues (fetchAllTables workbook)))) i = Some (tableName t)
  /\ nth_error (snd (fst (metadataValues (fetchAllTables workbook)))) i = Some false
  /\ nth_error (snd (metadataValues (fetchAllTables workbook))) i = Some 0
  /\ nth_error cols i = Some [].
Proof.
  intros E Et N.
  assert (D : nth_error (fetchAllTables workbook) i
              = Some {| name := tableName t; attrRow := []; isValid := false;
                        body := dataBody t |}).
  { unfold fetchAllTables. rewrite nth_error_map, Et. simpl. now rewrite N. }
  unfold metadataValues. cbn [fst snd]. rewrite !nth_error_map, D.
  repeat split.
  rewrite jsonValues_mapOutcome in E.
  pose proof (mapOutcome_length _ _ _ E) as L.
  apply mapOutcome_Returned in E.
  destruct (nth_error cols i) as [col|] eqn:Ec.
  - pose proof (Forall2_nth_error _ _ _ E i _ col D Ec) as R. simpl in R.
    now injection R as <-.
  - apply nth_error_None in Ec.
    assert (i < List.length (fetchAllTables workbook))
      by (apply nth_error_Some; now rewrite D).
    lia.
Qed.

Lemma table_without_row_above_is_not_converted_witness :
  nth_error (fst (fst (metadataValues
     (fetchAllTables [mkSheetTable "Top" None [[SNum 1]]])))) 0 = Some "Top"
  /\ nth_error (snd (fst (metadataValues
       (fetchAllTables [mkSheetTable "Top" None [[SNum 1]]])))) 0 = Some false
  /\ nth_error (snd (metadataValues
       (fetchAllTables [mkSheetTable "Top" None [[SNum 1]]]))) 0 = Some 0
  /\ nth_error [[]] 0 = Some (@nil string).
Proof.
  exact (table_without_row_above_is_not_converted Sloppy jsonFormatter
           [mkSheetTable "Top" None [[SNum 1]]] [[]] 0 _ eq_refl eq_refl eq_refl).
Defined.

(** ** The lines hold no control character *)

Lemma noControlChars_append a b :
  noControlChars (a ++ b) = noControlChars a && noControlChars b.
Proof.
  unfold noControlChars. induction a as [|c a IH]; cbn [allChars append]; [reflexivity|].
  now rewrite IH, andb_assoc.
Qed.

Lemma escapeChar_noControlChars c : noControlChars (escapeChar c) = true.
Proof. destruct c as [[|] [|] [|] [|] [|] [|] [|] [|]]; reflexivity. Qed.

Lemma noControlChars_String c s :
  noControlChars (String c s) = (32 <=? nat_of_ascii c)%nat && noControlChars s.
Proof. reflexivity. Qed.

Lemma escapeString_noControlChars s : noControlChars (escapeString s) = true.
Proof.
  induction s as [|c s IH]; [reflexivity|].
  cbn [escapeString]. now rewrite noControlChars_append, escapeChar_noControlChars.
Qed.

Lemma quote_noControlChars s : noControlChars (quote s) = true.
Proof.
  unfold quote.
  now rewrite noControlChars_String, noControlChars_append, escapeString_noControlChars.
Qed.

Lemma string_of_uint_noControlChars d :
  noControlChars (NilEmpty.string_of_uint d) = true.
Proof. induction d; simpl; auto. Qed.

Lemma numberToString_noControlChars n : noControlChars (numberToString n) = true.
Proof.
  unfold numberToString, NilZero.string_of_int, NilZero.string_of_uint.
  destruct (Z.to_int n) as [d|d]; destruct d; simpl;
    try reflexivity; apply string_of_uint_noControlChars.
Qed.

Lemma stringifyScalar_noControlChars s : noControlChars (stringifyScalar s) = true.
Proof.
  destruct s as [n|t|[|]|]; simpl; try reflexivity.
  - apply numberToString_noControlChars.
  - apply quote_noControlChars.
Qed.

Lemma join_noControlChars sep parts :
  noControlChars sep = true ->
  Forall (fun p => noControlChars p = true) parts ->
  noControlChars (join sep parts) = true.
Proof.
  intros S F. induction F as [|p parts P F IH]; [reflexivity|].
  destruct parts as [|p' parts]; [exact P|].
  change (join sep (p :: p' :: parts)) with (p ++ sep ++ join sep (p' :: parts))%string.
  now rewrite !noControlChars_append, P, S, IH.
Qed.

Lemma Forall_insertByIndex {A : Type} (P : string * A -> Prop) kv sorted :
  P kv -> Forall P sorted -> Forall P (insertByIndex kv sorted).
Proof.
  intros Pk F. induction F as [|kv' rest P' F IH]; simpl.
  - now constructor.
  - destruct (digitsValue 0 (fst kv) <=? digitsValue 0 (fst kv'))%N;
      repeat constructor; auto.
Qed.

Lemma Forall_filter {A : Type} (P : A -> Prop) (f : A -> bool) l :
  Forall P l -> Forall P (filter f l).
Proof.
  induction 1 as [|x l Px F IH]; simpl; [constructor|].
  destruct (f x); [constructor|]; auto.
Qed.

Lemma Forall_ownPropertyOrder {A : Type} (P : string * A -> Prop) ps :
  Forall P ps -> Forall P (ownPropertyOrder ps).
Proof.
  intros F. unfold ownPropertyOrder. apply Forall_app. split.
  - pose proof (Forall_filter P (fun kv => isArrayIndex (fst kv)) ps F) as G.
    induction G as [|kv l Pk G IH]; simpl; [constructor|].
    now apply Forall_insertByIndex.
  - now apply Forall_filter.
Qed.

Lemma value_induction (P : value -> Prop) :
  (forall s, P (Leaf s)) ->
  (forall props, Forall (fun kv => P (snd kv)) props -> P (Obj props)) ->
  forall v, P v.
Proof.
  intros HL HO. fix IH 1. intros [s|props].
  - apply HL.
  - apply HO. induction props as [|[k x] rest IHr]; constructor.
    + apply IH.
    + exact IHr.
Qed.

Lemma JSON_stringify_noControlChars v : noControlChars (JSON_stringify v) = true.
Proof.
  induction v as [s|props F] using value_induction.
  - apply stringifyScalar_noControlChars.
  - cbn [JSON_stringify append].
    rewrite noControlChars_String, noControlChars_append.
    rewrite join_noControlChars; [reflexivity|reflexivity|].
    apply Forall_map. apply Forall_ownPropertyOrder.
    induction F as [|[k x] rest Px F IH]; constructor; [|exact IH].
    cbn [fst snd]. rewrite !noControlChars_append, quote_noControlChars.
    rewrite noControlChars_String. exact Px.
Qed.

(** X18.  Every line that the formatter returns is free of control
    characters: whatever strings the records hold as keys or values, no line
    break, tab or other character below U+0020 occurs in a line. *)
Theorem jsonFormatter_lines_have_no_control_chars data :
  Forall (fun line => noControlChars line = true) (jsonFormatter data).
Proof.
  unfold jsonFormatter, mapi. apply Forall_app. split; [now repeat constructor|].
  apply Forall_app. split; [|now repeat constructor].
  apply Forall_mapiFrom. intros o index.
  rewrite noControlChars_append, JSON_stringify_noControlChars.
  now destruct (Z.of_nat index <? Z.of_nat (List.length data) - 1)%Z.
Qed.

(** ** When a row throws *)





(** X20.  For the tables that [fetchAllTables] hands over, a table's column
    of lines is empty exactly when its attribute row is invalid: a valid
    table always gets the two bracket lines at least. *)
Theorem empty_column_iff_invalid_row m workbook cols i t col :
  jsonValues m jsonFormatter (fetchAllTables workbook) = Returned cols ->
  nth_error workbook i = Some t -> nth_error cols i = Some col ->
  (col = [] <->
   validAttrRow (match rowAbove t with Some r => r | None => [] end) = false).
Proof.
  intros E Et Ec.
  assert (D : nth_error (fetchAllTables workbook) i
              = Some {| name := tableName t;
                        attrRow := match rowAbove t with Some r => r | None => [] end;
                        isValid := validAttrRow
                                     (match rowAbove t with Some r => r | None => [] end);
                        body := dataBody t |}).
  { unfold fetchAllTables. now rewrite nth_error_map, Et. }
  rewrite jsonValues_mapOutcome in E. apply mapOutcome_Returned in E.
  pose proof (Forall2_nth_error _ _ _ E i _ col D Ec) as R. cbn beta in R.
  cbn [isValid body attrRow] in R.
  destruct (validAttrRow (match rowAbove t with Some r => r | None => [] end)).
  - apply bind_inv in R. destruct R as (recs & _ & Eq). injection Eq as <-.
    split; [|discriminate]. intros Nil.
    pose proof (jsonFormatter_length recs) as L. rewrite Nil in L. simpl in L. lia.
  - injection R as <-. split; reflexivity.
Qed.

Lemma empty_column_iff_invalid_row_witness :
  @nil string = []
  <-> validAttrRow (match rowAbove (mkSheetTable "T" (Some ["a b"]) [[SNum 1]]) with
                    | Some r => r
                    | None => []
                    end) = false.
Proof.
  exact (empty_column_iff_invalid_row Sloppy [mkSheetTable "T" (Some ["a b"]) [[SNum 1]]]
           [[]] 0 _ [] eq_refl eq_refl eq_refl).
Defined.
